(** * The transport core of the Unreal MCP server

    A shallow embedding of [UnrealConnection] from
    [Python/unreal_mcp_server.py]: [connect], [disconnect],
    [receive_full_response] and [send_command], together with the
    properties that the specification states about them.

    Python values are modelled by the inductive type [value]; a [dict] is a
    finite map, so that two dicts with the same items are equal, as they
    are in Python. Exceptions are values of type [exn] carried by
    [outcome]; the methods of the class are computations in a small
    state-and-exception monad that also records every operation performed
    on a socket. Calls to [logging] have no effect on control flow or on the
    object and are left out.

    Around that core the file covers the rest of the module,
    [get_unreal_connection] and [server_lifespan]; the callers in
    [Python/tools/editor_tools.py], with the tools [get_actors_in_level]
    and [delete_actor] and the validators [validate_actor_name] and
    [validate_vector_param]; and, of [Python/tools/config_manager.py],
    which provides the configuration that [connect] reads,
    [_set_nested_value], [apply_environment_overrides] and
    [find_config_file]. *)

From Stdlib Require Import ZArith String Ascii List Bool Lia.
From Stdlib Require Import Strings.Byte Floats.SpecFloat.
From stdpp Require Import gmap strings.

Import ListNotations.
Open Scope string_scope.
Open Scope list_scope.

Set Warnings "-register-all".

(** ** Python values and exceptions *)

Abbreviation bytes := (list byte).

(** A Python [str] is represented by the string of its UTF-8 code units. *)
Abbreviation str := string.

(** A Python [float] is an IEEE 754 binary64 number. *)
Abbreviation float := spec_float.

Inductive value :=
| VNone
| VBool (b : bool)
| VInt (n : Z)
| VFloat (f : float)
| VStr (s : str)
| VList (l : list value)
| VDict (d : gmap string value).

(** The exception classes that the code raises or names in an [except]
    clause. All of them derive from [Exception]. *)
Inductive exc_class :=
| Exception
| OSError
| SocketTimeout
| JSONDecodeError
| UnicodeDecodeError
| UnicodeEncodeError
| AttributeError
| TypeError
| ValueError
| RecursionError.

(** [exc_text] is what [str(e)] returns. *)
Record exn := mkExn { exc_type : exc_class; exc_text : str }.

Inductive outcome (A : Type) :=
| Ok (a : A)
| Raise (e : exn).
Arguments Ok {A} a.
Arguments Raise {A} e.

(** [except socket.timeout] *)
Definition is_timeout (e : exn) : bool :=
  match exc_type e with SocketTimeout => true | _ => false end.

(** [bool(v)] *)
Definition truthy (v : value) : bool :=
  match v with
  | VNone => false
  | VBool b => b
  | VInt n => negb (n =? 0)%Z
  | VFloat (S754_zero _) => false
  | VFloat _ => true
  | VStr s => negb (String.eqb s "")
  | VList l => match l with [] => false | _ => true end
  | VDict d => negb (bool_decide (d = ∅))
  end.

(** [type(v).__name__] *)
Definition type_name (v : value) : str :=
  match v with
  | VNone => "NoneType"
  | VBool _ => "bool"
  | VInt _ => "int"
  | VFloat _ => "float"
  | VStr _ => "str"
  | VList _ => "list"
  | VDict _ => "dict"
  end.

(** The text of the [AttributeError] raised by [obj.attr] when the type of
    [obj] has no attribute [attr]. *)
Definition no_attribute (type attr : str) : exn :=
  mkExn AttributeError ("'" +:+ type +:+ "' object has no attribute '" +:+ attr +:+ "'").

(** [a or b] *)
Definition py_or (a b : value) : value := if truthy a then a else b.

(** [v == s] for a [str] literal [s] *)
Definition eq_str (v : value) (s : str) : bool :=
  match v with VStr s' => String.eqb s' s | _ => false end.

(** [v is False] *)
Definition is_False (v : value) : bool :=
  match v with VBool false => true | _ => false end.

(** [d.get(key, default)] for a [dict] *)
Definition dict_get (d : gmap string value) (key : str) (default : value) : value :=
  match d !! key with
  | Some v => v
  | None => default
  end.

(** ** The library functions the code calls

    [bytes.decode('utf-8')], [str.encode('utf-8')], [json.loads] and
    [json.dumps] belong to the Python library, not to this program. The
    model takes them as an interface; every theorem below holds for all of
    its implementations. *)
Class Codec := {
  bytes_decode : bytes -> outcome str;
  str_encode : str -> outcome bytes;
  json_loads : str -> outcome value;
  json_dumps : value -> outcome str;
}.

(** ** Sockets *)

Definition handle := nat.

Inductive sockopt := TCP_NODELAY | SO_KEEPALIVE | SO_RCVBUF | SO_SNDBUF.

(** The methods of a socket object that the code calls. *)
Inductive sock_call :=
| Close
| SetTimeout (seconds : Z)
| SetSockOpt (opt : sockopt) (val : Z)
| Connect (host : str) (port : Z)
| SendAll (data : bytes)
| Recv (bufsize : Z).

Definition method_name (c : sock_call) : str :=
  match c with
  | Close => "close"
  | SetTimeout _ => "settimeout"
  | SetSockOpt _ _ => "setsockopt"
  | Connect _ _ => "connect"
  | SendAll _ => "sendall"
  | Recv _ => "recv"
  end.

(** What one call of a method of the class does to the outside world:
    sockets created and methods called on them, in order. *)
Inductive event :=
| NewSocket (h : handle)
| Call (h : handle) (c : sock_call).

(** [config.connection] *)
Record ConnectionConfig := {
  host : str;
  port : Z;
  timeout : Z;
  buffer_size : Z;
}.

(** How the operating system and the peer behave during one command.
    [method_raises k h c] tells whether the method call [c] on the socket
    [h] raises when [k] method calls were made before it, so that the same
    call may succeed at one time and fail at another; it is asked about
    every method but [recv]. [recv_script] lists
    what the successive calls of [recv] return or raise; [recv] returns
    [b''] when the peer has closed its side. The answer of the peer is
    finite: once the script is used up nothing more arrives and [recv]
    raises [socket.timeout]. *)
Record environment := {
  get_config : outcome ConnectionConfig;
  socket_socket : option exn;
  method_raises : nat -> handle -> sock_call -> option exn;
  recv_script : list (outcome bytes);
}.

Definition socket_timeout : exn := mkExn SocketTimeout "timed out".

(** ** The connection object and the monad of its methods *)

Record UnrealConnection := mkConnection {
  socket : option handle;
  connected : bool;
}.

(** [__init__] *)
Definition init : UnrealConnection := mkConnection None false.

(** The object, the handle of the next socket to be created, and the
    number of method calls made on sockets so far. *)
Record state := mkState {
  self : UnrealConnection;
  next_handle : handle;
  clock : nat;
}.

Definition M (A : Type) : Type := state -> outcome A * state * list event.

Definition ret {A} (a : A) : M A := fun s => (Ok a, s, []).

Definition raise {A} (e : exn) : M A := fun s => (Raise e, s, []).

Definition lift {A} (r : outcome A) : M A := fun s => (r, s, []).

Definition bind {A B} (m : M A) (k : A -> M B) : M B := fun s =>
  match m s with
  | (Ok a, s1, t1) => let '(r, s2, t2) := k a s1 in (r, s2, t1 ++ t2)
  | (Raise e, s1, t1) => (Raise e, s1, t1)
  end.

(** [try: body  except Exception as e: handler] *)
Definition try_except {A} (body : M A) (handler : exn -> M A) : M A := fun s =>
  match body s with
  | (Ok a, s1, t1) => (Ok a, s1, t1)
  | (Raise e, s1, t1) => let '(r, s2, t2) := handler e s1 in (r, s2, t1 ++ t2)
  end.

Declare Scope py_scope.
Delimit Scope py_scope with py.
Notation "x <- m ;; k" := (bind m (fun x => k))
  (at level 100, m at next level, right associativity) : py_scope.
Notation "m ;; k" := (bind m (fun _ => k))
  (at level 100, right associativity) : py_scope.
Open Scope py_scope.

(** [try: body  except: pass] *)
Definition swallow (body : M unit) : M unit := try_except body (fun _ => ret tt).

Definition get_socket : M (option handle) := fun s => (Ok (socket (self s)), s, []).

Definition set_socket (h : option handle) : M unit := fun s =>
  (Ok tt, mkState (mkConnection h (connected (self s))) (next_handle s) (clock s), []).

Definition set_connected (b : bool) : M unit := fun s =>
  (Ok tt, mkState (mkConnection (socket (self s)) b) (next_handle s) (clock s), []).

Section Transport.

Context {codec : Codec}.
Variable env : environment.

(** [h.method(...)] on a socket object. *)
Definition call (h : handle) (c : sock_call) : M unit := fun s =>
  (match method_raises env (clock s) h c with Some e => Raise e | None => Ok tt end,
   mkState (self s) (next_handle s) (S (clock s)), [Call h c]).

(** [self.socket.method(...)]: the attribute lookup fails on [None]. *)
Definition self_socket_call (c : sock_call) : M unit :=
  sock <- get_socket ;;
  match sock with
  | Some h => call h c
  | None => raise (no_attribute "NoneType" (method_name c))
  end.

(** [socket.socket(socket.AF_INET, socket.SOCK_STREAM)] *)
Definition new_socket : M handle := fun s =>
  match socket_socket env with
  | Some e => (Raise e, s, [])
  | None =>
      (Ok (next_handle s), mkState (self s) (S (next_handle s)) (clock s),
       [NewSocket (next_handle s)])
  end.

(** [if self.socket: try: self.socket.close() except: pass; self.socket = None]
    (lines 137-142) *)
Definition close_existing : M unit :=
  sock <- get_socket ;;
  match sock with
  | Some h => swallow (call h Close) ;; set_socket None
  | None => ret tt
  end.

(** [connect] (lines 133-168) *)
Definition connect : M bool :=
  try_except
    (close_existing ;;
     connection_config <- lift (get_config env) ;;
     h <- new_socket ;;
     set_socket (Some h) ;;
     self_socket_call (SetTimeout (timeout connection_config)) ;;
     self_socket_call (SetSockOpt TCP_NODELAY 1) ;;
     self_socket_call (SetSockOpt SO_KEEPALIVE 1) ;;
     self_socket_call (SetSockOpt SO_RCVBUF (buffer_size connection_config)) ;;
     self_socket_call (SetSockOpt SO_SNDBUF (buffer_size connection_config)) ;;
     self_socket_call (Connect (host connection_config) (port connection_config)) ;;
     set_connected true ;;
     ret true)
    (fun e => set_connected false ;; ret false).

(** [disconnect] (lines 170-178) *)
Definition disconnect : M unit :=
  sock <- get_socket ;;
  match sock with
  | Some h => swallow (call h Close)
  | None => ret tt
  end ;;
  set_socket None ;;
  set_connected false.

(** [json.loads(data.decode('utf-8'))] *)
Definition parse (data : bytes) : outcome value :=
  match bytes_decode data with
  | Ok decoded_data => json_loads decoded_data
  | Raise e => Raise e
  end.

Definition parses (data : bytes) : bool :=
  match parse data with Ok _ => true | Raise _ => false end.

Definition closed_before_data : exn :=
  mkExn Exception "Connection closed before receiving data".

Definition timeout_failure : exn :=
  mkExn Exception "Timeout receiving Unreal response".

(** The [while True] loop of [receive_full_response] (lines 185-208), run
    against what the successive [recv] calls do. The result is how the loop
    is left ([Ok None] stands for [break]), the list [chunks] at that
    point, and the number of [recv] calls made. *)
Fixpoint read_loop (script : list (outcome bytes)) (chunks : list bytes)
  : outcome (option bytes) * list bytes * nat :=
  match script with
  | [] => (Raise socket_timeout, chunks, 1)
  | Raise e :: _ => (Raise e, chunks, 1)
  | Ok chunk :: rest =>
      match chunk with
      | [] =>
          match chunks with
          | [] => (Raise closed_before_data, chunks, 1)
          | _ => (Ok None, chunks, 1)
          end
      | _ =>
          let chunks := chunks ++ [chunk] in
          let data := concat chunks in
          match bytes_decode data with
          | Raise e => (Raise e, chunks, 1)
          | Ok decoded_data =>
              match json_loads decoded_data with
              | Ok _ => (Ok (Some data), chunks, 1)
              | Raise _ =>
                  let '(r, chunks', n) := read_loop rest chunks in
                  (r, chunks', S n)
              end
          end
      end
  end.

(** The handler [except socket.timeout] (lines 209-220). *)
Definition on_timeout (chunks : list bytes) : outcome (option bytes) :=
  match chunks with
  | [] => Raise timeout_failure
  | _ =>
      let data := concat chunks in
      match parse data with
      | Ok _ => Ok (Some data)
      | Raise _ => Raise timeout_failure
      end
  end.

(** [receive_full_response] (lines 180-223). A loop left by [break] falls
    off the end of the function, which returns [None]. *)
Definition receive_full_response (sock : handle) (buffer_size : Z)
  : M (option bytes) :=
  call sock (SetTimeout 5) ;;
  let '(r, chunks, reads) := read_loop (recv_script env) [] in
  (fun s =>
     (Ok tt, mkState (self s) (next_handle s) (reads + clock s),
      replicate reads (Call sock (Recv buffer_size)))) ;;
  match r with
  | Ok None => ret None
  | Ok (Some data) => ret (Some data)
  | Raise e => if is_timeout e then lift (on_timeout chunks) else raise e
  end.

Definition error_result (message : value) : value :=
  VDict (<["status" := VStr "error"]> (<["error" := message]> ∅)).

Definition unknown_error : value := VStr "Unknown Unreal error".

(** [response.get("error") or response.get("message", "Unknown Unreal error")] *)
Definition error_message_of (response : gmap string value) : value :=
  py_or (dict_get response "error" VNone) (dict_get response "message" unknown_error).

(** The check for the two error formats (lines 260-275), for a response
    that is a [dict]. *)
Definition normalize_dict (response : gmap string value) : value :=
  if eq_str (dict_get response "status" VNone) "error" then
    let error_message := error_message_of response in
    match response !! "error" with
    | None => VDict (<["error" := error_message]> response)
    | Some _ => VDict response
    end
  else if is_False (dict_get response "success" VNone) then
    let error_message := error_message_of response in
    error_result error_message
  else VDict response.

(** Lines 260-275. The first thing they do is to call [response.get], a
    method that only a [dict] has. *)
Definition normalize (response : value) : outcome value :=
  match response with
  | VDict d => Ok (normalize_dict d)
  | _ => Raise (no_attribute (type_name response) "get")
  end.

(** [response_data.decode('utf-8')] at line 255, where [response_data] is
    what [receive_full_response] returned. *)
Definition decode_response (response_data : option bytes) : outcome str :=
  match response_data with
  | Some data => bytes_decode data
  | None => Raise (no_attribute "NoneType" "decode")
  end.

(** The discarding of an existing socket at the start of [send_command]
    (lines 229-235). *)
Definition discard_existing : M unit :=
  sock <- get_socket ;;
  match sock with
  | Some h => swallow (call h Close) ;; set_socket None ;; set_connected false
  | None => ret tt
  end.

(** Lines 243-255: build and send the command, read and parse the
    response. *)
Definition exchange (command : str) (params : value) : M value :=
  let command_obj :=
    VDict (<["type" := VStr command]>
           (<["params" := py_or params (VDict ∅)]> ∅)) in
  command_json <- lift (json_dumps command_obj) ;;
  sock <- get_socket ;;
  match sock with
  | None => raise (no_attribute "NoneType" "sendall")
  | Some h =>
      payload <- lift (str_encode command_json) ;;
      call h (SendAll payload) ;;
      response_data <- receive_full_response h 4096 ;;
      decoded <- lift (decode_response response_data) ;;
      lift (json_loads decoded)
  end.

(** [send_command] (lines 225-300) *)
Definition send_command (command : str) (params : value) : M value :=
  discard_existing ;;
  ok <- connect ;;
  if negb ok then ret VNone
  else
    try_except
      (response <- exchange command params ;;
       response <- lift (normalize response) ;;
       swallow (self_socket_call Close) ;;
       set_socket None ;;
       set_connected false ;;
       ret response)
      (fun e =>
         set_connected false ;;
         swallow (self_socket_call Close) ;;
         set_socket None ;;
         ret (error_result (VStr (exc_text e)))).

(** The value bound to [response] at line 255, when the call gets there. *)
Definition parsed_response (command : str) (params : value) (s : state)
  : option value :=
  match (discard_existing ;; connect) s with
  | (Ok true, s1, _) =>
      match exchange command params s1 with
      | (Ok response, _, _) => Some response
      | _ => None
      end
  | _ => None
  end.

End Transport.

(** What a call returned, the state it left and what it did. *)
Definition result {A} (r : outcome A * state * list event) : outcome A := fst (fst r).
Definition after {A} (r : outcome A * state * list event) : state := snd (fst r).
Definition events {A} (r : outcome A * state * list event) : list event := snd r.

(** Writing to or reading from a socket. *)
Definition is_io (ev : event) : bool :=
  match ev with
  | Call _ (SendAll _) | Call _ (Recv _) => true
  | _ => false
  end.

Definition is_connect (ev : event) : bool :=
  match ev with
  | Call _ (Connect _ _) => true
  | _ => false
  end.

(** ** A reference implementation of the library functions

    The functions of the Python library that the interface [Codec] stands
    for, written out so that the model can be run on concrete exchanges.
    The text of a [JSONDecodeError] is the reason alone, without the
    position; the program never shows it. [json_loads] has no limit on the
    nesting depth or on the number of digits of an integer. *)
Module Reference.

Definition code (c : ascii) : N := N_of_ascii c.

Definition dquote : ascii := "034"%char.
Definition backslash : ascii := "092"%char.

(** *** UTF-8 *)

Definition is_continuation (b : N) : bool := (128 <=? b)%N && (b <? 192)%N.

Inductive utf8_step :=
| Utf8Char (len : nat)
| Utf8InvalidStart
| Utf8InvalidContinuation (n : nat)
| Utf8UnexpectedEnd.

(** The first character of [s], as CPython's decoder reads it. *)
Definition utf8_next (s : list N) : utf8_step :=
  match s with
  | [] => Utf8Char 0
  | ch :: t =>
      if (ch <? 128)%N then Utf8Char 1
      else if (ch <? 194)%N then Utf8InvalidStart
      else if (ch <? 224)%N then
        match t with
        | [] => Utf8UnexpectedEnd
        | ch2 :: _ =>
            if is_continuation ch2 then Utf8Char 2 else Utf8InvalidContinuation 1
        end
      else if (ch <? 240)%N then
        match t with
        | [] => Utf8UnexpectedEnd
        | ch2 :: t2 =>
            if negb (is_continuation ch2)
               || (if (ch2 <? 160)%N then (ch =? 224)%N else (ch =? 237)%N)
            then Utf8InvalidContinuation 1
            else
              match t2 with
              | [] => Utf8UnexpectedEnd
              | ch3 :: _ =>
                  if is_continuation ch3 then Utf8Char 3
                  else Utf8InvalidContinuation 2
              end
        end
      else if (ch <? 245)%N then
        match t with
        | [] => Utf8UnexpectedEnd
        | ch2 :: t2 =>
            if negb (is_continuation ch2)
               || (if (ch2 <? 144)%N then (ch =? 240)%N else (ch =? 244)%N)
            then Utf8InvalidContinuation 1
            else
              match t2 with
              | [] => Utf8UnexpectedEnd
              | ch3 :: t3 =>
                  if negb (is_continuation ch3) then Utf8InvalidContinuation 2
                  else
                    match t3 with
                    | [] => Utf8UnexpectedEnd
                    | ch4 :: _ =>
                        if is_continuation ch4 then Utf8Char 4
                        else Utf8InvalidContinuation 3
                    end
              end
        end
      else Utf8InvalidStart
  end.

Definition hex_digit (n : N) : ascii :=
  match String.get (N.to_nat n) "0123456789abcdef" with
  | Some c => c
  | None => "0"%char
  end.

Fixpoint hex_digits (width : nat) (n : N) : string :=
  match width with
  | O => ""
  | S w => hex_digits w (n / 16) +:+ String (hex_digit (n mod 16)) ""
  end.

Fixpoint decimal_fuel (fuel : nat) (n : N) (acc : string) : string :=
  match fuel with
  | O => acc
  | S fuel =>
      let acc := String (hex_digit (n mod 10)) acc in
      if (n <? 10)%N then acc else decimal_fuel fuel (n / 10) acc
  end.

(** [str(n)] for a natural number *)
Definition decimal (n : N) : string := decimal_fuel (S (N.to_nat (N.log2 n))) n "".

(** [str(e)] for a [UnicodeDecodeError] *)
Definition decode_error (ch first stop : N) (reason : string) : exn :=
  mkExn UnicodeDecodeError
    (if (stop =? first + 1)%N then
       "'utf-8' codec can't decode byte 0x" +:+ hex_digits 2 ch +:+
       " in position " +:+ decimal first +:+ ": " +:+ reason
     else
       "'utf-8' codec can't decode bytes in position " +:+ decimal first +:+
       "-" +:+ decimal (stop - 1) +:+ ": " +:+ reason).

Fixpoint utf8_scan (fuel : nat) (pos : N) (s : list N) : option exn :=
  match fuel, s with
  | S fuel, ch :: _ =>
      match utf8_next s with
      | Utf8Char n => utf8_scan fuel (pos + N.of_nat n) (drop n s)
      | Utf8InvalidStart =>
          Some (decode_error ch pos (pos + 1) "invalid start byte")
      | Utf8InvalidContinuation n =>
          Some (decode_error ch pos (pos + N.of_nat n) "invalid continuation byte")
      | Utf8UnexpectedEnd =>
          Some (decode_error ch pos (pos + N.of_nat (length s)) "unexpected end of data")
      end
  | _, _ => None
  end.

(** [data.decode('utf-8')] *)
Definition decode (data : bytes) : outcome str :=
  match utf8_scan (length data) 0 (map Byte.to_N data) with
  | Some e => Raise e
  | None => Ok (string_of_list_byte data)
  end.

(** The characters of a [str], from the UTF-8 code units that represent
    it. A lone surrogate, which [json.loads] can produce from an escape, is
    represented by three code units. *)
Fixpoint code_points (s : list N) : list N :=
  match s with
  | [] => []
  | ch :: t =>
      if (ch <? 192)%N then ch :: code_points t
      else
        match t with
        | [] => [ch]
        | ch2 :: t2 =>
            if (ch <? 224)%N then
              ((ch - 192) * 64 + ch2 mod 64)%N :: code_points t2
            else
              match t2 with
              | [] => [ch; ch2]
              | ch3 :: t3 =>
                  if (ch <? 240)%N then
                    ((ch - 224) * 4096 + ch2 mod 64 * 64 + ch3 mod 64)%N
                    :: code_points t3
                  else
                    match t3 with
                    | [] => [ch; ch2; ch3]
                    | ch4 :: t4 =>
                        ((ch - 240) * 262144 + ch2 mod 64 * 4096
                         + ch3 mod 64 * 64 + ch4 mod 64)%N
                        :: code_points t4
                    end
              end
        end
  end.

Definition units (s : string) : list N := map code (String.list_ascii_of_string s).

Definition of_units (l : list N) : string :=
  String.string_of_list_ascii (map ascii_of_N l).

(** [chr(cp)], as code units *)
Definition utf8_encode (cp : N) : string :=
  of_units
    (if (cp <? 128)%N then [cp]
     else if (cp <? 2048)%N then [192 + cp / 64; 128 + cp mod 64]%N
     else if (cp <? 65536)%N then
       [224 + cp / 4096; 128 + cp / 64 mod 64; 128 + cp mod 64]%N
     else
       [240 + cp / 262144; 128 + cp / 4096 mod 64; 128 + cp / 64 mod 64;
        128 + cp mod 64]%N).

Definition is_surrogate (cp : N) : bool := (55296 <=? cp)%N && (cp <=? 57343)%N.

Fixpoint count_while {A} (p : A -> bool) (l : list A) : nat :=
  match l with
  | x :: t => if p x then S (count_while p t) else O
  | [] => O
  end.

(** [s.encode('utf-8')]: surrogates cannot be encoded. *)
Definition encode (s : str) : outcome bytes :=
  let cps := code_points (units s) in
  let first := count_while (fun cp => negb (is_surrogate cp)) cps in
  match drop first cps with
  | [] => Ok (list_byte_of_string s)
  | (cp :: _) as bad =>
      let run := count_while is_surrogate bad in
      Raise (mkExn UnicodeEncodeError
        (if Nat.eqb run 1 then
           "'utf-8' codec can't encode character '\u" +:+ hex_digits 4 cp +:+
           "' in position " +:+ decimal (N.of_nat first) +:+
           ": surrogates not allowed"
         else
           "'utf-8' codec can't encode characters in position " +:+
           decimal (N.of_nat first) +:+ "-" +:+
           decimal (N.of_nat (first + run - 1)) +:+ ": surrogates not allowed"))
  end.

(** *** Floating point *)

(** [float(text)] for the decimal number [m * 10 ^ e]: the nearest binary64
    number, ties to even. *)
Definition float_of_decimal (negative : bool) (m : N) (e : Z) : float :=
  match m with
  | N0 => S754_zero negative
  | Npos p =>
      if (0 <=? e)%Z then
        binary_normalize 53 1024
          ((if negative then Z.opp else id) (Zpos p * 10 ^ e))%Z 0 negative
      else
        let d := (10 ^ (- e))%Z in
        let k := Z.max 0 (Z.log2 d - Z.log2 (Zpos p) + 64) in
        let '(q, r) := Z.div_eucl (Zpos p * 2 ^ k) d in
        let l := if (r =? 0)%Z then loc_Exact
                 else loc_Inexact (Z.compare (2 * r) d) in
        binary_round_aux 53 1024 negative q (- k) l
  end.

(** *** [json.loads] *)

Definition json_error (reason : string) : exn := mkExn JSONDecodeError reason.

Definition is_whitespace (c : ascii) : bool :=
  match code c with
  | 32%N | 9%N | 10%N | 13%N => true
  | _ => false
  end.

Fixpoint skip_whitespace (s : string) : string :=
  match s with
  | String c r => if is_whitespace c then skip_whitespace r else s
  | EmptyString => s
  end.

Definition is_digit (c : ascii) : bool := (48 <=? code c)%N && (code c <=? 57)%N.

Definition hex_value (c : ascii) : option N :=
  let n := code c in
  if is_digit c then Some (n - 48)%N
  else if (65 <=? n)%N && (n <=? 70)%N then Some (n - 55)%N
  else if (97 <=? n)%N && (n <=? 102)%N then Some (n - 87)%N
  else None.

Definition hex4 (a b c d : ascii) : option N :=
  match hex_value a, hex_value b, hex_value c, hex_value d with
  | Some a, Some b, Some c, Some d => Some (((a * 16 + b) * 16 + c) * 16 + d)%N
  | _, _, _, _ => None
  end.

Definition simple_escape (c : ascii) : option ascii :=
  if Ascii.eqb c dquote then Some dquote
  else if Ascii.eqb c backslash then Some backslash
  else
    match c with
    | "/"%char => Some "/"%char
    | "b"%char => Some "008"%char
    | "f"%char => Some "012"%char
    | "n"%char => Some "010"%char
    | "r"%char => Some "013"%char
    | "t"%char => Some "009"%char
    | _ => None
    end.

Definition unterminated : exn := json_error "Unterminated string starting at".
Definition invalid_uXXXX : exn := json_error "Invalid \uXXXX escape".

(** [scanstring] with [strict=True], from the character after the opening
    quote: the string and the text after its closing quote. *)
Fixpoint scanstring (s : string) (acc : string) : outcome (string * string) :=
  match s with
  | EmptyString => Raise unterminated
  | String c r =>
      if Ascii.eqb c dquote then Ok (acc, r)
      else if Ascii.eqb c backslash then
        match r with
        | EmptyString => Raise unterminated
        | String esc r1 =>
            if Ascii.eqb esc "u" then
              match r1 with
              | String h1 (String h2 (String h3 (String h4 r2))) =>
                  match hex4 h1 h2 h3 h4 with
                  | None => Raise invalid_uXXXX
                  | Some uni =>
                      let single := scanstring r2 (acc +:+ utf8_encode uni) in
                      if (55296 <=? uni)%N && (uni <=? 56319)%N then
                        match r2 with
                        | String b (String u r3) =>
                            if Ascii.eqb b backslash && Ascii.eqb u "u" then
                              match r3 with
                              | String g1 (String g2 (String g3 (String g4 r4))) =>
                                  match hex4 g1 g2 g3 g4 with
                                  | None => Raise invalid_uXXXX
                                  | Some uni2 =>
                                      if (56320 <=? uni2)%N && (uni2 <=? 57343)%N then
                                        scanstring r4
                                          (acc +:+ utf8_encode
                                             (65536 + (uni - 55296) * 1024
                                              + (uni2 - 56320))%N)
                                      else single
                                  end
                              | _ => Raise invalid_uXXXX
                              end
                            else single
                        | _ => single
                        end
                      else single
                  end
              | _ => Raise invalid_uXXXX
              end
            else
              match simple_escape esc with
              | Some ch => scanstring r1 (acc +:+ String ch EmptyString)
              | None => Raise (json_error "Invalid \escape")
              end
        end
      else if (code c <? 32)%N then Raise (json_error "Invalid control character at")
      else scanstring r (acc +:+ String c EmptyString)
  end.

Fixpoint take_digits (s : string) : string * string :=
  match s with
  | String c r =>
      if is_digit c then let '(d, r') := take_digits r in (String c d, r')
      else (EmptyString, s)
  | EmptyString => (EmptyString, EmptyString)
  end.

Definition digits_value (d : string) : N :=
  fold_left (fun acc c => (acc * 10 + (code c - 48))%N)
    (String.list_ascii_of_string d) 0%N.

(** The match of [NUMBER_RE] at the start of [s], and what [int] or [float]
    makes of it. *)
Definition scan_number (s : string) : option (value * string) :=
  let '(negative, s1) :=
    match s with
    | String "-" r => (true, r)
    | _ => (false, s)
    end in
  let integer :=
    match s1 with
    | String "0" r => Some ("0", r)
    | String c _ => if is_digit c then Some (take_digits s1) else None
    | EmptyString => None
    end in
  match integer with
  | None => None
  | Some (int_digits, s2) =>
      let '(frac, s3) :=
        match s2 with
        | String "." r =>
            match take_digits r with
            | (EmptyString, _) => (EmptyString, s2)
            | (d, r') => (d, r')
            end
        | _ => (EmptyString, s2)
        end in
      let '(exponent, s4) :=
        match s3 with
        | String c r =>
            if Ascii.eqb c "e" || Ascii.eqb c "E" then
              let '(eneg, r1) :=
                match r with
                | String "-" r' => (true, r')
                | String "+" r' => (false, r')
                | _ => (false, r)
                end in
              match take_digits r1 with
              | (EmptyString, _) => (None, s3)
              | (d, r') =>
                  (Some ((if eneg then Z.opp else id) (Z.of_N (digits_value d))), r')
              end
            else (None, s3)
        | EmptyString => (None, s3)
        end in
      match frac, exponent with
      | EmptyString, None =>
          Some (VInt ((if negative then Z.opp else id)
                        (Z.of_N (digits_value int_digits))), s4)
      | _, _ =>
          Some (VFloat (float_of_decimal negative
                          (digits_value (int_digits +:+ frac))
                          (match exponent with Some e => e | None => 0 end
                           - Z.of_nat (String.length frac))), s4)
      end
  end.

Fixpoint strip_prefix (p s : string) : option string :=
  match p, s with
  | EmptyString, _ => Some s
  | String a p', String b s' => if Ascii.eqb a b then strip_prefix p' s' else None
  | _, _ => None
  end.

(** The constants that [scan_once] accepts without quotes. *)
Definition scan_constant (s : string) : option (value * string) :=
  match strip_prefix "null" s with
  | Some r => Some (VNone, r)
  | None =>
  match strip_prefix "true" s with
  | Some r => Some (VBool true, r)
  | None =>
  match strip_prefix "false" s with
  | Some r => Some (VBool false, r)
  | None =>
  match scan_number s with
  | Some res => Some res
  | None =>
  match strip_prefix "NaN" s with
  | Some r => Some (VFloat S754_nan, r)
  | None =>
  match strip_prefix "Infinity" s with
  | Some r => Some (VFloat (S754_infinity false), r)
  | None =>
  match strip_prefix "-Infinity" s with
  | Some r => Some (VFloat (S754_infinity true), r)
  | None => None
  end end end end end end end.

Definition expecting_value : exn := json_error "Expecting value".
Definition expecting_name : exn :=
  json_error "Expecting property name enclosed in double quotes".
Definition too_deep : exn :=
  mkExn RecursionError "maximum recursion depth exceeded".

(** [scan_once], [JSONObject] and [JSONArray]. [object_members] starts after
    the opening quote of a key, [array_items] at an item. *)
Fixpoint scan_once (fuel : nat) (s : string) : outcome (value * string) :=
  match fuel with
  | O => Raise too_deep
  | S fuel =>
      match s with
      | EmptyString => Raise expecting_value
      | String c r =>
          if Ascii.eqb c dquote then
            match scanstring r EmptyString with
            | Ok (text, rest) => Ok (VStr text, rest)
            | Raise e => Raise e
            end
          else if Ascii.eqb c "{" then
            match skip_whitespace r with
            | EmptyString => Raise expecting_name
            | String c1 r1 =>
                if Ascii.eqb c1 "}" then Ok (VDict ∅, r1)
                else if Ascii.eqb c1 dquote then object_members fuel r1 ∅
                else Raise expecting_name
            end
          else if Ascii.eqb c "[" then
            match skip_whitespace r with
            | String "]" r1 => Ok (VList [], r1)
            | r1 => array_items fuel r1 []
            end
          else
            match scan_constant s with
            | Some res => Ok res
            | None => Raise expecting_value
            end
      end
  end
with object_members (fuel : nat) (s : string) (pairs : gmap string value)
  : outcome (value * string) :=
  match fuel with
  | O => Raise too_deep
  | S fuel =>
      match scanstring s EmptyString with
      | Raise e => Raise e
      | Ok (key, r) =>
          match skip_whitespace r with
          | String ":" r1 =>
              match scan_once fuel (skip_whitespace r1) with
              | Raise e => Raise e
              | Ok (v, r2) =>
                  let pairs := <[key := v]> pairs in
                  match skip_whitespace r2 with
                  | String "}" rest => Ok (VDict pairs, rest)
                  | String "," r3 =>
                      match skip_whitespace r3 with
                      | EmptyString => Raise expecting_name
                      | String c4 r4 =>
                          if Ascii.eqb c4 dquote then object_members fuel r4 pairs
                          else Raise expecting_name
                      end
                  | _ => Raise (json_error "Expecting ',' delimiter")
                  end
              end
          | _ => Raise (json_error "Expecting ':' delimiter")
          end
      end
  end
with array_items (fuel : nat) (s : string) (values : list value)
  : outcome (value * string) :=
  match fuel with
  | O => Raise too_deep
  | S fuel =>
      match scan_once fuel s with
      | Raise e => Raise e
      | Ok (v, r) =>
          let values := values ++ [v] in
          match skip_whitespace r with
          | String "]" rest => Ok (VList values, rest)
          | String "," r1 => array_items fuel (skip_whitespace r1) values
          | _ => Raise (json_error "Expecting ',' delimiter")
          end
      end
  end.

(** [json.loads(s)] for a [str] *)
Definition loads (s : str) : outcome value :=
  match strip_prefix (utf8_encode 65279) s with
  | Some _ => Raise (json_error "Unexpected UTF-8 BOM (decode using utf-8-sig)")
  | None =>
      match scan_once (2 * String.length s + 2) (skip_whitespace s) with
      | Raise e => Raise e
      | Ok (v, rest) =>
          match skip_whitespace rest with
          | EmptyString => Ok v
          | _ => Raise (json_error "Extra data")
          end
      end
  end.

(** *** [json.dumps] *)

Definition same_float (a b : float) : bool :=
  match a, b with
  | S754_zero s, S754_zero s' => Bool.eqb s s'
  | S754_infinity s, S754_infinity s' => Bool.eqb s s'
  | S754_nan, S754_nan => true
  | S754_finite s m e, S754_finite s' m' e' =>
      Bool.eqb s s' && Pos.eqb m m' && Z.eqb e e'
  | _, _ => false
  end.

(** [repr(x)] for a finite [x > 0] equal to [num / den]: the shortest
    decimal that reads back as the same number and, among those, the
    nearest. The result [(digits, q)] stands for [digits * 10 ^ q]. *)
Definition scaled_floor (num den q : Z) : Z * Z * Z :=
  let '(n, d) := if (q <=? 0)%Z then (num * 10 ^ (- q), den)%Z
                 else (num, den * 10 ^ q)%Z in
  (n / d, n mod d, d)%Z.

Definition decimal_point (num den : Z) : Z :=
  let est := (Z.of_nat (String.length (decimal (Z.to_N num)))
              - Z.of_nat (String.length (decimal (Z.to_N den))))%Z in
  let '(lo, _, _) := scaled_floor num den est in
  if (1 <=? lo)%Z then (est + 1)%Z else est.

Fixpoint shortest (fuel : nat) (n : Z) (x : float) (num den point : Z) : Z * Z :=
  let q := (point - n)%Z in
  let '(lo, r, d) := scaled_floor num den q in
  let nearest :=
    match Z.compare (2 * r) d with
    | Lt => lo
    | Gt => (lo + 1)%Z
    | Eq => if Z.even lo then lo else (lo + 1)%Z
    end in
  let reads c := same_float (float_of_decimal false (Z.to_N c) q) x in
  match fuel with
  | O => (nearest, q)
  | S fuel =>
      if (r =? 0)%Z then (lo, q)
      else if reads lo && reads (lo + 1)%Z then (nearest, q)
      else if reads lo then (lo, q)
      else if reads (lo + 1)%Z then ((lo + 1)%Z, q)
      else shortest fuel (n + 1)%Z x num den point
  end.

Fixpoint strip_zeros (rev_digits : list ascii) : list ascii :=
  match rev_digits with
  | "0"%char :: t => strip_zeros t
  | _ => rev_digits
  end.

Definition zeros (n : Z) : string :=
  String.string_of_list_ascii (repeat "0"%char (Z.to_nat n)).

(** [float.__repr__], with the names [json.dumps] writes for the numbers
    that are not finite. *)
Definition float_repr (x : float) : string :=
  match x with
  | S754_nan => "NaN"
  | S754_infinity false => "Infinity"
  | S754_infinity true => "-Infinity"
  | S754_zero false => "0.0"
  | S754_zero true => "-0.0"
  | S754_finite negative m e =>
      let '(num, den) := if (0 <=? e)%Z then (Zpos m * 2 ^ e, 1)%Z
                         else (Zpos m, 2 ^ (- e))%Z in
      let point := decimal_point num den in
      let '(c, q) := shortest 16 1 (binary_normalize 53 1024 (Zpos m) e false)
                       num den point in
      let all := String.list_ascii_of_string (decimal (Z.to_N c)) in
      let digits := String.string_of_list_ascii (rev (strip_zeros (rev all))) in
      let len := Z.of_nat (String.length digits) in
      let decpt := (q + Z.of_nat (length all))%Z in
      (if negative then "-" else EmptyString) +:+
      (if (decpt <=? -4)%Z || (16 <? decpt)%Z then
         let exponent := (decpt - 1)%Z in
         let exp_digits := decimal (Z.to_N (Z.abs exponent)) in
         String.substring 0 1 digits +:+
         (if (1 <? len)%Z then "." +:+ String.substring 1 (String.length digits) digits
          else EmptyString) +:+
         "e" +:+ (if (exponent <? 0)%Z then "-" else "+") +:+
         (if (Z.abs exponent <? 10)%Z then "0" else EmptyString) +:+ exp_digits
       else if (decpt <=? 0)%Z then "0." +:+ zeros (- decpt) +:+ digits
       else if (len <=? decpt)%Z then digits +:+ zeros (decpt - len) +:+ ".0"
       else String.substring 0 (Z.to_nat decpt) digits +:+ "." +:+
            String.substring (Z.to_nat decpt) (String.length digits) digits)
  end.

(** [str(n)] for an [int] *)
Definition int_repr (n : Z) : string :=
  (if (n <? 0)%Z then "-" else EmptyString) +:+ decimal (Z.to_N (Z.abs n)).

Definition escape_ascii (cp : N) : string :=
  let u n := "\u" +:+ hex_digits 4 n in
  match cp with
  | 34%N => String backslash (String dquote EmptyString)
  | 92%N => String backslash (String backslash EmptyString)
  | 8%N => "\b"
  | 12%N => "\f"
  | 10%N => "\n"
  | 13%N => "\r"
  | 9%N => "\t"
  | _ =>
      if (32 <=? cp)%N && (cp <=? 126)%N then String (ascii_of_N cp) EmptyString
      else if (cp <? 65536)%N then u cp
      else u (55296 + (cp - 65536) / 1024)%N +:+ u (56320 + (cp - 65536) mod 1024)%N
  end.

(** [encode_basestring_ascii] *)
Definition encode_basestring_ascii (s : str) : string :=
  String dquote
    (foldr (fun cp acc => escape_ascii cp +:+ acc)
       (String dquote EmptyString) (code_points (units s))).

Fixpoint join (sep : string) (l : list string) : string :=
  match l with
  | [] => EmptyString
  | [x] => x
  | x :: t => x +:+ sep +:+ join sep t
  end.

(** [json.dumps(v)] with the default options. The members of an object are
    written in the order of the finite map; CPython writes them in the order
    in which they were inserted, which the map does not keep. *)
Fixpoint dumps (v : value) : string :=
  match v with
  | VNone => "null"
  | VBool true => "true"
  | VBool false => "false"
  | VInt n => int_repr n
  | VFloat x => float_repr x
  | VStr s => encode_basestring_ascii s
  | VList l => "[" +:+ join ", " (map dumps l) +:+ "]"
  | VDict d =>
      "{" +:+
      join ", "
        (map_fold (fun k v acc => (encode_basestring_ascii k +:+ ": " +:+ dumps v) :: acc)
           [] d) +:+
      "}"
  end.

Definition codec : Codec := {|
  bytes_decode := decode;
  str_encode := encode;
  json_loads := loads;
  json_dumps := fun v => Ok (dumps v);
|}.

End Reference.

(** ** Concrete peers *)

(** A text with every apostrophe replaced by a double quote. *)
Fixpoint json_text (s : string) : string :=
  match s with
  | String c r =>
      String (if Ascii.eqb c "'" then Reference.dquote else c) (json_text r)
  | EmptyString => EmptyString
  end.

Definition utf8 (s : string) : bytes := list_byte_of_string s.

Definition default_config : ConnectionConfig :=
  {| host := "127.0.0.1"; port := 55557; timeout := 5; buffer_size := 65536 |}.

(** A peer that accepts the connection and whose answer arrives as the
    given reads. *)
Definition peer (script : list (outcome bytes)) : environment :=
  {| get_config := Ok default_config;
     socket_socket := None;
     method_raises := fun _ _ _ => None;
     recv_script := script |}.

(** Nothing listens on the port. *)
Definition refused : environment :=
  {| get_config := Ok default_config;
     socket_socket := None;
     method_raises := fun _ _ c =>
       match c with
       | Connect _ _ => Some (mkExn OSError "[Errno 111] Connection refused")
       | _ => None
       end;
     recv_script := [] |}.

(** A connection object on which no method was called yet. *)
Definition initial : state := mkState init 0 0.

(** The peer sends the start of a response and closes. *)
Definition truncated : environment :=
  peer [Ok (utf8 (json_text "{'success': true, ")); Ok []].

(** The peer is slow: the start of a response, then nothing. *)
Definition stalled : environment :=
  peer [Ok (utf8 (json_text "{'success': true, "))].

(** The response ["é"], cut between the two bytes of its letter. *)
Definition split_character : environment :=
  peer [Ok [x22; xc3]; Ok [xa9; x22]; Ok []].

Definition legacy_error : environment :=
  peer [Ok (utf8 (json_text "{'status': 'error', 'message': 'X'}")); Ok []].

Definition status_error : environment :=
  peer [Ok (utf8 (json_text "{'status': 'error', 'error': 'X'}")); Ok []].

Definition success_false : environment :=
  peer [Ok (utf8 (json_text "{'success': false, 'message': 'X'}")); Ok []].

Definition array_response : environment :=
  peer [Ok (utf8 (json_text "[1, 2]")); Ok []].

(** The scenarios of the specification: a success, a peer that closes
    without sending, a response in three fragments. *)
Definition actors_response : environment :=
  peer [Ok (utf8 (json_text "{'success': true, 'result': {'actors': []}}")); Ok []].

Definition silent_close : environment := peer [Ok []].

Definition fragments : environment :=
  peer [Ok (utf8 (json_text "{'suc")); Ok (utf8 (json_text "cess': tr"));
        Ok (utf8 "ue}"); Ok []].

(** What the discarding at the start of [send_command] does to the socket
    it finds. *)
Definition discard_events (s : state) : list event :=
  match socket (self s) with
  | Some h => [Call h Close]
  | None => []
  end.

(** The methods [connect] calls on the socket it has created, in order. *)
Definition setup_calls (config : ConnectionConfig) : list sock_call :=
  [SetTimeout (timeout config);
   SetSockOpt TCP_NODELAY 1;
   SetSockOpt SO_KEEPALIVE 1;
   SetSockOpt SO_RCVBUF (buffer_size config);
   SetSockOpt SO_SNDBUF (buffer_size config);
   Connect (host config) (port config)].

(** What [send_command] returns once the connection is made, from how
    lines 243-255 ended: the response as normalized, or the canonical
    failure made of the text of the exception. *)
Definition reply (r : outcome value) : value :=
  match r with
  | Ok response =>
      match normalize response with
      | Ok v => v
      | Raise e => error_result (VStr (exc_text e))
      end
  | Raise e => error_result (VStr (exc_text e))
  end.

(** An event that is a method call on the socket [h]. *)
Definition on_handle (h : handle) (ev : event) : Prop :=
  exists c, ev = Call h c.

(** ** The connection shared by the tools

    The module keeps one connection object in the global
    [_unreal_connection] (line 303). [get_unreal_connection] hands it to
    every tool, and [server_lifespan] sets it up and tears it down. The
    state of the module is that global together with the two counters of
    [state]. *)

Record process := mkProcess {
  _unreal_connection : option UnrealConnection;
  sockets_created : handle;
  calls_made : nat;
}.

Definition G (A : Type) : Type := process -> outcome A * process * list event.

Module Global.

Definition ret {A} (a : A) : G A := fun p => (Ok a, p, []).

Definition raise {A} (e : exn) : G A := fun p => (Raise e, p, []).

Definition lift {A} (r : outcome A) : G A := fun p => (r, p, []).

Definition bind {A B} (m : G A) (k : A -> G B) : G B := fun p =>
  match m p with
  | (Ok a, p1, t1) => let '(r, p2, t2) := k a p1 in (r, p2, t1 ++ t2)
  | (Raise e, p1, t1) => (Raise e, p1, t1)
  end.

(** [try: body  except Exception as e: handler] *)
Definition try_except {A} (body : G A) (handler : exn -> G A) : G A := fun p =>
  match body p with
  | (Ok a, p1, t1) => (Ok a, p1, t1)
  | (Raise e, p1, t1) => let '(r, p2, t2) := handler e p1 in (r, p2, t1 ++ t2)
  end.

(** [try: body  finally: cleanup]: an exception of [body] is raised again
    after [cleanup], unless [cleanup] raises one itself. *)
Definition finally {A} (body : G A) (cleanup : G unit) : G A := fun p =>
  let '(r, p1, t1) := body p in
  match cleanup p1 with
  | (Ok _, p2, t2) => (r, p2, t1 ++ t2)
  | (Raise e, p2, t2) => (Raise e, p2, t1 ++ t2)
  end.

Definition result {A} (r : outcome A * process * list event) : outcome A := fst (fst r).
Definition after {A} (r : outcome A * process * list event) : process := snd (fst r).
Definition events {A} (r : outcome A * process * list event) : list event := snd r.

End Global.

Declare Scope global_scope.
Delimit Scope global_scope with G.
Notation "x <- m ;; k" := (Global.bind m (fun x => k))
  (at level 100, m at next level, right associativity) : global_scope.
Notation "m ;; k" := (Global.bind m (fun _ => k))
  (at level 100, right associativity) : global_scope.

Definition get_global : G (option UnrealConnection) := fun p =>
  (Ok (_unreal_connection p), p, []).

(** [_unreal_connection = c] *)
Definition set_global (c : option UnrealConnection) : G unit := fun p =>
  (Ok tt, mkProcess c (sockets_created p) (calls_made p), []).

(** [_unreal_connection.m(...)] for a method [m] of the class: the method
    runs on the object that the global holds, and what it does to the
    object is seen through the global. On [None] the attribute lookup
    fails. *)
Definition method {A} (name : str) (m : M A) : G A := fun p =>
  match _unreal_connection p with
  | Some c =>
      let '(r, s, t) := m (mkState c (sockets_created p) (calls_made p)) in
      (r, mkProcess (Some (self s)) (next_handle s) (clock s), t)
  | None => (Raise (no_attribute "NoneType" name), p, [])
  end.

Section Server.

Context {codec : Codec}.
Variable env : environment.

#[local] Open Scope global_scope.

(** [_unreal_connection = UnrealConnection()] followed by
    [if not _unreal_connection.connect(): _unreal_connection = None], as
    written at lines 310-313 and again at lines 325-330. *)
Definition connect_new : G unit :=
  set_global (Some init) ;;
  ok <- method "connect" (connect env) ;;
  if negb ok then set_global None else Global.ret tt.

(** [_unreal_connection.socket.sendall(b'\x00')] (line 318) *)
Definition ping : G unit :=
  method "socket" (self_socket_call env (SendAll [x00])).

(** [get_unreal_connection] (lines 305-335) *)
Definition get_unreal_connection : G (option UnrealConnection) :=
  Global.try_except
    (c <- get_global ;;
     match c with
     | None => connect_new
     | Some _ =>
         Global.try_except ping
           (fun e =>
              method "disconnect" (disconnect env) ;;
              set_global None ;;
              connect_new)
     end ;;
     get_global)
    (fun e => Global.ret None).

(** The start of [server_lifespan], up to its [yield] (lines 351-360).
    The call of [load_configuration] before it (lines 344-349) is wrapped
    in a [try] of its own and touches the configuration and the logger
    only; what [get_config()] returns afterwards belongs to the
    environment. *)
Definition startup : G unit :=
  Global.try_except
    (c <- get_unreal_connection ;; set_global c)
    (fun e => set_global None).

(** The [finally] clause of [server_lifespan] (lines 365-367). A
    connection object is always true. *)
Definition shutdown : G unit :=
  c <- get_global ;;
  match c with
  | Some _ => method "disconnect" (disconnect env) ;; set_global None
  | None => Global.ret tt
  end.

(** [server_lifespan] (lines 337-368), wrapped around what the server
    does while it runs. *)
Definition server_lifespan {A} (running : G A) : G A :=
  startup ;; Global.finally running shutdown.

End Server.

(** The module as it is loaded: no connection, no socket. *)
Definition loaded : process := mkProcess None 0 0.

(** A [SendAll] on any socket. *)
Definition is_send (ev : event) : bool :=
  match ev with
  | Call _ (SendAll _) => true
  | _ => false
  end.

Definition is_recv (ev : event) : bool :=
  match ev with
  | Call _ (Recv _) => true
  | _ => false
  end.

Definition is_close (ev : event) : bool :=
  match ev with
  | Call _ Close => true
  | _ => false
  end.

(** The object with which [connect] goes on after it has closed the
    socket it found (lines 137-142): without that socket, one method call
    later. *)
Definition closed (s : state) : state :=
  match socket (self s) with
  | Some _ =>
      mkState (mkConnection None (connected (self s))) (next_handle s) (S (clock s))
  | None => s
  end.

(** What closing the socket of a connection object amounts to. *)
Definition closing (c : option UnrealConnection) : list event :=
  match c with
  | Some (mkConnection (Some h) _) => [Call h Close]
  | _ => []
  end.

(** ** Built-in operations of Python that the tools use

    The texts of the exceptions are those of CPython 3.11. *)

Module Builtins.

(** The characters that [str.strip()] removes, those for which
    [str.isspace()] holds, each as its code units. *)
Definition whitespace : list (list ascii) :=
  map (fun cp => String.list_ascii_of_string (Reference.utf8_encode cp))
    [9; 10; 11; 12; 13; 28; 29; 30; 31; 32; 133; 160; 5760;
     8192; 8193; 8194; 8195; 8196; 8197; 8198; 8199; 8200; 8201; 8202;
     8232; 8233; 8239; 8287; 12288]%N.

(** The rest of [s] when it starts with [w]. *)
Fixpoint after_prefix (w s : list ascii) : option (list ascii) :=
  match w, s with
  | [], _ => Some s
  | a :: w', b :: s' => if Ascii.eqb a b then after_prefix w' s' else None
  | _ :: _, [] => None
  end.

(** The rest of [s] when it starts with one of [ws]. *)
Fixpoint after_any (ws : list (list ascii)) (s : list ascii) : option (list ascii) :=
  match ws with
  | [] => None
  | w :: ws' =>
      match after_prefix w s with
      | Some r => Some r
      | None => after_any ws' s
      end
  end.

(** [s] without the longest prefix made of elements of [ws]; every
    element of [ws] is non-empty, so [length s] steps are enough. *)
Fixpoint strip_left (ws : list (list ascii)) (fuel : nat) (s : list ascii)
  : list ascii :=
  match fuel with
  | O => s
  | S fuel' =>
      match after_any ws s with
      | Some r => strip_left ws fuel' r
      | None => s
      end
  end.

Definition lstrip (s : list ascii) : list ascii :=
  strip_left whitespace (length s) s.

Definition rstrip (s : list ascii) : list ascii :=
  rev (strip_left (map (@rev ascii) whitespace) (length s) (rev s)).

(** [s.strip()] *)
Definition strip (s : str) : str :=
  String.string_of_list_ascii (rstrip (lstrip (String.list_ascii_of_string s))).

(** [sub in s] for two [str] *)
Fixpoint contains (sub s : string) : bool :=
  String.prefix sub s ||
  match s with
  | String _ r => contains sub r
  | EmptyString => false
  end.

(** [s.split(sep)] for a separator of one character *)
Fixpoint split (sep : ascii) (s : string) : list string :=
  match s with
  | EmptyString => [EmptyString]
  | String c r =>
      if Ascii.eqb c sep then EmptyString :: split sep r
      else
        match split sep r with
        | first :: rest => String c first :: rest
        | [] => [String c EmptyString]
        end
  end.

(** [len(v)] *)
Definition len (v : value) : outcome Z :=
  match v with
  | VStr s => Ok (Z.of_nat (length (Reference.code_points (Reference.units s))))
  | VList l => Ok (Z.of_nat (length l))
  | VDict d => Ok (Z.of_nat (size d))
  | _ =>
      Raise (mkExn TypeError
               ("object of type '" +:+ type_name v +:+ "' has no len()"))
  end.

(** [key in container] for a [str] key *)
Definition contains_key (key : str) (container : value) : outcome bool :=
  match container with
  | VDict d => Ok (match d !! key with Some _ => true | None => false end)
  | VList l => Ok (existsb (fun v => eq_str v key) l)
  | VStr s => Ok (contains key s)
  | _ =>
      Raise (mkExn TypeError
               ("argument of type '" +:+ type_name container +:+ "' is not iterable"))
  end.

(** What [container[key]] raises for a [str] key when [container] is not
    a [dict]. *)
Definition subscript_error (container : value) : exn :=
  mkExn TypeError
    match container with
    | VList _ => "list indices must be integers or slices, not str"
    | VStr _ => "string indices must be integers, not 'str'"
    | _ => "'" +:+ type_name container +:+ "' object is not subscriptable"
    end.

(** What [container[key] = v] raises for a [str] key when [container] is
    not a [dict]. *)
Definition assignment_error (container : value) : exn :=
  mkExn TypeError
    match container with
    | VList _ => "list indices must be integers or slices, not str"
    | _ => "'" +:+ type_name container +:+ "' object does not support item assignment"
    end.

(** [key in container], followed by [container[key]] when it holds: the
    value found, or [None] when the key is not there. *)
Definition find_key (key : str) (container : value) : outcome (option value) :=
  match container with
  | VDict d => Ok (d !! key)
  | _ =>
      match contains_key key container with
      | Ok true => Raise (subscript_error container)
      | Ok false => Ok None
      | Raise e => Raise e
      end
  end.

(** [except ValueError]: the classes that derive from [ValueError]. *)
Definition is_ValueError (e : exn) : bool :=
  match exc_type e with
  | ValueError | JSONDecodeError | UnicodeDecodeError | UnicodeEncodeError => true
  | _ => false
  end.

(** [except TypeError] *)
Definition is_TypeError (e : exn) : bool :=
  match exc_type e with
  | TypeError => true
  | _ => false
  end.

End Builtins.

(** ** Tools of the editor: [tools/editor_tools.py] *)

(** The list [invalid_chars] of line 65: the characters that a file name
    cannot hold, the double quote and the backslash among them. *)
Definition invalid_chars : list str :=
  ["<"; ">"; ":"; String Reference.dquote ""; "|"; "?"; "*"; "/";
   String Reference.backslash ""].

(** [validate_actor_name] (lines 43-70) *)
Definition validate_actor_name (name : value) : outcome str :=
  match name with
  | VStr s =>
      if String.eqb s "" then
        Raise (mkExn ValueError "Actor name must be a non-empty string")
      else
        let name := Builtins.strip s in
        if String.eqb name "" then
          Raise (mkExn ValueError "Actor name cannot be empty or whitespace only")
        else
          match List.find (fun char => Builtins.contains char name) invalid_chars with
          | Some char =>
              Raise (mkExn ValueError ("Actor name cannot contain '" +:+ char +:+ "'"))
          | None => Ok name
          end
  | _ => Raise (mkExn ValueError "Actor name must be a non-empty string")
  end.

Section Vectors.

(** [float(val)] belongs to the library. *)
Variable float_of : value -> outcome float.

(** The comprehension [[float(val) for val in param_value]] (line 38):
    the elements are converted in order, and the first exception ends
    it. *)
Fixpoint floats (l : list value) : outcome (list float) :=
  match l with
  | [] => Ok []
  | val :: l' =>
      match float_of val with
      | Raise e => Raise e
      | Ok f =>
          match floats l' with
          | Raise e => Raise e
          | Ok fs => Ok (f :: fs)
          end
      end
  end.

(** [validate_vector_param] (lines 16-40) *)
Definition validate_vector_param (param_name : str) (param_value : value)
    (required_length : Z) : outcome (list float) :=
  match param_value with
  | VList l =>
      if negb (Z.of_nat (length l) =? required_length)%Z then
        Raise (mkExn ValueError
                 (param_name +:+ " must have exactly "
                  +:+ Reference.int_repr required_length
                  +:+ " elements, got " +:+ Reference.int_repr (Z.of_nat (length l))))
      else
        match floats l with
        | Ok fs => Ok fs
        | Raise e =>
            if Builtins.is_ValueError e || Builtins.is_TypeError e then
              Raise (mkExn ValueError
                       (param_name +:+ " must contain only numeric values: "
                        +:+ exc_text e))
            else Raise e
        end
  | _ =>
      Raise (mkExn ValueError
               (param_name +:+ " must be a list, got " +:+ type_name param_value))
  end.

End Vectors.

(** [{"success": False, "message": message}] *)
Definition failure (message : str) : value :=
  VDict (<["success" := VBool false]> (<["message" := VStr message]> ∅)).

Section Tools.

Context {codec : Codec}.

(** A tool asks [get_unreal_connection] for the shared connection and
    calls [send_command] on what it gets, which is the object that the
    global holds. The import of [get_unreal_connection] at the head of a
    tool is taken to succeed. [env] is what the outside world does while
    [get_unreal_connection] runs, [env'] what it does while [send_command]
    runs. *)
Variables (env env' : environment).

#[local] Open Scope global_scope.

(** [get_actors_in_level] (lines 77-110). Each test [key in container]
    and the subscripts [container[key]] that follow it are one [find_key].
    The messages for the logger are built before they are logged, and
    [len(actors)] in them raises when [actors] has no length. *)
Definition get_actors_in_level : G value :=
  Global.try_except
    (unreal <- get_unreal_connection env ;;
     match unreal with
     | None => Global.ret (VList [])
     | Some _ =>
         response <- method "send_command"
                       (send_command env' "get_actors_in_level" (VDict ∅)) ;;
         if negb (truthy response) then Global.ret (VList [])
         else
           result <- Global.lift (Builtins.find_key "result" response) ;;
           nested <- match result with
                     | Some result => Global.lift (Builtins.find_key "actors" result)
                     | None => Global.ret None
                     end ;;
           match nested with
           | Some actors =>
               Global.lift (Builtins.len actors) ;;
               Global.ret actors
           | None =>
               top <- Global.lift (Builtins.find_key "actors" response) ;;
               match top with
               | Some actors =>
                   Global.lift (Builtins.len actors) ;;
                   Global.ret actors
               | None => Global.ret (VList [])
               end
           end
     end)
    (fun e => Global.ret (VList [])).

(** [delete_actor] (lines 209-247) *)
Definition delete_actor (name : value) : G value :=
  Global.try_except
    (name <- Global.lift (validate_actor_name name) ;;
     unreal <- get_unreal_connection env ;;
     match unreal with
     | None => Global.ret (failure "Failed to connect to Unreal Engine")
     | Some _ =>
         response <- method "send_command"
                       (send_command env' "delete_actor"
                          (VDict (<["name" := VStr name]> ∅))) ;;
         if negb (truthy response) then
           Global.ret (failure "No response from Unreal Engine")
         else Global.ret response
     end)
    (fun e =>
       if Builtins.is_ValueError e then
         Global.ret (failure ("Validation error: " +:+ exc_text e))
       else
         Global.ret (failure ("Error deleting actor: " +:+ exc_text e))).

End Tools.

(** ** The configuration manager: [tools/config_manager.py]

    A configuration is the [dict] that was read from the file, before it
    is validated. *)

(** The walk of [_set_nested_value] (lines 308-313) from the object
    [current] on: how it ended, and what [current] holds afterwards. The
    objects on the way are changed in place, so that what is done to a
    child shows in its parent. *)
Fixpoint set_nested (keys : list str) (last : str) (v : value) (current : value)
  : outcome unit * value :=
  match keys with
  | [] =>
      match current with
      | VDict d => (Ok tt, VDict (<[last := v]> d))
      | _ => (Raise (Builtins.assignment_error current), current)
      end
  | key :: keys' =>
      match current with
      | VDict d =>
          let child :=
            match d !! key with
            | Some child => child
            | None => VDict ∅
            end in
          let '(r, child') := set_nested keys' last v child in
          (r, VDict (<[key := child']> d))
      | _ =>
          match Builtins.contains_key key current with
          | Raise e => (Raise e, current)
          | Ok false => (Raise (Builtins.assignment_error current), current)
          | Ok true => (Raise (Builtins.subscript_error current), current)
          end
      end
  end.

(** [_set_nested_value] (lines 296-313) *)
Definition _set_nested_value (config_dict : value) (path : str) (v : value)
  : outcome unit * value :=
  let keys := Builtins.split "." path in
  set_nested (removelast keys) (List.last keys "") v config_dict.

(** [config_dict[k1][k2]...], when every object on the way is a [dict]
    that has the key. *)
Fixpoint get_nested (keys : list str) (current : value) : option value :=
  match keys with
  | [] => Some current
  | key :: keys' =>
      match current with
      | VDict d =>
          match d !! key with
          | Some child => get_nested keys' child
          | None => None
          end
      | _ => None
      end
  end.

(** The configuration has a section ["connection"] whose ["host"] is [h]. *)
Definition has_host (h : str) (config_dict : value) : Prop :=
  exists d c,
    config_dict = VDict d /\ d !! "connection" = Some (VDict c) /\
    c !! "host" = Some (VStr h).

Section Overrides.

(** [os.getenv], [int(x)] and [x.lower()] *)
Variable getenv : str -> option str.
Variable int : str -> outcome Z.
Variable lower : str -> str.

(** The table [env_mappings] (lines 272-282) *)
Definition env_mappings : list (str * (str * (str -> outcome value))) :=
  [("UNREAL_MCP_HOST", ("connection.host", fun x => Ok (VStr x)));
   ("UNREAL_MCP_PORT",
    ("connection.port",
     fun x => match int x with Ok n => Ok (VInt n) | Raise e => Raise e end));
   ("UNREAL_MCP_TIMEOUT",
    ("connection.timeout",
     fun x => match int x with Ok n => Ok (VInt n) | Raise e => Raise e end));
   ("UNREAL_MCP_LOG_LEVEL", ("logging.level", fun x => Ok (VStr x)));
   ("UNREAL_MCP_LOG_FILE", ("logging.file_path", fun x => Ok (VStr x)));
   ("UNREAL_MCP_PROJECT_PATH", ("project.project_path", fun x => Ok (VStr x)));
   ("UNREAL_MCP_ENGINE_VERSION", ("project.engine_version", fun x => Ok (VStr x)));
   ("UNREAL_MCP_DEBUG",
    ("debug_mode",
     fun x => Ok (VBool (existsb (String.eqb (lower x)) ["true"; "1"; "yes"]))));
   ("UNREAL_MCP_ENVIRONMENT", ("environment", fun x => Ok (VStr x)))].

(** One turn of the loop of [apply_environment_overrides] (lines
    284-292): an exception of the converter or of [_set_nested_value] is
    logged and dropped. *)
Definition apply_override (config_dict : value)
    (mapping : str * (str * (str -> outcome value))) : value :=
  let '(env_var, (config_path, converter)) := mapping in
  match getenv env_var with
  | None => config_dict
  | Some env_value =>
      match converter env_value with
      | Ok v => snd (_set_nested_value config_dict config_path v)
      | Raise _ => config_dict
      end
  end.

(** [apply_environment_overrides] (lines 262-294) *)
Definition apply_environment_overrides (config_dict : value) : value :=
  fold_left apply_override env_mappings config_dict.

End Overrides.

(** The list [self.config_files] (lines 176-185) *)
Definition config_files : list str :=
  ["unreal_mcp.yaml"; "unreal_mcp.yml"; "unreal_mcp.json"; "unreal_mcp.toml";
   "config.yaml"; "config.yml"; "config.json"; "config.toml"].

Section Files.

(** Paths, [directory / filename], [path.exists()] and [Path.cwd()] *)
Variable Path : Type.
Variable joinpath : Path -> str -> Path.
Variable path_exists : Path -> outcome bool.
Variable cwd : outcome Path.

(** One of the two loops of [find_config_file], over the files of one
    directory. *)
Fixpoint first_existing (directory : outcome Path) (names : list str)
  : outcome (option Path) :=
  match names with
  | [] => Ok None
  | filename :: names' =>
      match directory with
      | Raise e => Raise e
      | Ok d =>
          let config_path := joinpath d filename in
          match path_exists config_path with
          | Raise e => Raise e
          | Ok true => Ok (Some config_path)
          | Ok false => first_existing directory names'
          end
      end
  end.

(** [find_config_file] (lines 187-209) *)
Definition find_config_file (config_dir : Path) : outcome (option Path) :=
  match first_existing (Ok config_dir) config_files with
  | Ok None => first_existing cwd config_files
  | found => found
  end.

End Files.

(** ** Concrete inputs for the tools and the configuration *)

(** The peer answers with the empty object. *)
Definition empty_object : environment := peer [Ok (utf8 "{}"); Ok []].

(** The module after a first [get_unreal_connection] that succeeded. *)
Definition connected_once : process :=
  mkProcess (Some (mkConnection (Some 0) true)) 1 6.

(** An environment of the process in which only [UNREAL_MCP_HOST] is set. *)
Definition only_host (name : str) : option str :=
  if String.eqb name "UNREAL_MCP_HOST" then Some "10.0.0.5" else None.

(** An [int] that accepts nothing, and a [lower] for texts without capitals. *)
Definition no_int (x : str) : outcome Z :=
  Raise (mkExn ValueError ("invalid literal for int() with base 10: '" +:+ x +:+ "'")).

Definition same_text (x : str) : str := x.

(** [{"connection": {"host": "127.0.0.1", "port": 55557}}] *)
Definition file_config : gmap string value :=
  <["connection" :=
      VDict (<["host" := VStr "127.0.0.1"]> (<["port" := VInt 55557]> ∅))]> ∅.

(** [{"connection": "local"}] *)
Definition misconfigured : gmap string value :=
  <["connection" := VStr "local"]> ∅.

(** Paths as texts, and a disk that holds [config/config.json] and
    [./unreal_mcp.yaml]. *)
Definition joined (directory : string) (filename : str) : string :=
  directory +:+ "/" +:+ filename.

Definition on_disk (path : string) : outcome bool :=
  Ok (String.eqb path "config/config.json" || String.eqb path "./unreal_mcp.yaml").

(** A [float] for values that are floats already. *)
Definition float_only (val : value) : outcome float :=
  match val with
  | VFloat f => Ok f
  | _ =>
      Raise (mkExn TypeError
               ("float() argument must be a string or a real number, not '"
                +:+ type_name val +:+ "'"))
  end.

(** ** Computations that never raise *)

Definition total {A} (m : M A) : Prop :=
  forall s, exists a s' t, m s = (Ok a, s', t).

Lemma total_ret {A} (a : A) : total (ret a).
Proof. intros s. unfold ret. eauto. Qed.

Lemma total_bind {A B} (m : M A) (k : A -> M B) :
  total m -> (forall a, total (k a)) -> total (bind m k).
Proof.
  intros Hm Hk s. unfold bind.
  destruct (Hm s) as (a & s1 & t1 & ->).
  destruct (Hk a s1) as (b & s2 & t2 & ->). eauto.
Qed.

Lemma total_try_except {A} (body : M A) (handler : exn -> M A) :
  (forall e, total (handler e)) -> total (try_except body handler).
Proof.
  intros Hh s. unfold try_except.
  destruct (body s) as [[[a | e] s1] t1]; [eauto |].
  destruct (Hh e s1) as (b & s2 & t2 & ->). eauto.
Qed.

Lemma total_swallow (body : M unit) : total (swallow body).
Proof. apply total_try_except. intros _. apply total_ret. Qed.

Lemma total_get_socket : total get_socket.
Proof. intros s. unfold get_socket. eauto. Qed.

Lemma total_set_socket h : total (set_socket h).
Proof. intros s. unfold set_socket. eauto. Qed.

Lemma total_set_connected b : total (set_connected b).
Proof. intros s. unfold set_connected. eauto. Qed.

Create HintDb total.

#[local] Hint Resolve total_ret total_swallow total_get_socket
  total_set_socket total_set_connected : total.

Ltac unfold_monad :=
  cbv beta iota zeta delta
    [bind try_except swallow ret raise lift get_socket set_socket
     set_connected call new_socket self_socket_call].

(** Lookups of literal keys in maps built by insertions. *)
Ltac simpl_lookups :=
  repeat first
    [ rewrite lookup_insert_eq
    | rewrite lookup_insert_ne; [| discriminate]
    | rewrite lookup_empty
    | progress simpl ].

Ltac total_steps :=
  repeat first
    [ apply total_bind; [ | intros ? ]
    | apply total_try_except; intros ?
    | solve [ auto with total ] ].

Section Properties.

Context {codec : Codec}.
Variable env : environment.

Lemma total_discard_existing : total (discard_existing env).
Proof.
  unfold discard_existing. apply total_bind; [auto with total |].
  intros [h |]; total_steps.
Qed.

Lemma total_connect : total (connect env).
Proof. unfold connect. total_steps. Qed.

(** C7. [send_command] returns a value to its caller on every path: whatever
    the configuration, the operating system, the peer (whose answer is a
    finite sequence of reads) and the library functions do, and whatever
    exception they raise on the way, the call ends with a value and not
    with an exception. *)
Theorem send_command_never_raises (command : str) (params : value) (s : state) :
  exists (v : value) (s' : state) (t : list event),
    send_command env command params s = (Ok v, s', t).
Proof.
  revert s. change (total (send_command env command params)).
  unfold send_command.
  apply total_bind; [apply total_discard_existing | intros _].
  apply total_bind; [apply total_connect | intros ok].
  destruct ok; simpl; total_steps.
Qed.

(** ** What each step does to the object and to the sockets *)

Lemma discard_existing_eq (s : state) :
  discard_existing env s =
  (Ok tt,
   match socket (self s) with
   | Some _ => mkState (mkConnection None false) (next_handle s) (S (clock s))
   | None => s
   end,
   discard_events s).
Proof.
  unfold discard_existing, discard_events. unfold_monad.
  destruct s as [[[h |] c] n k]; simpl; [| reflexivity].
  destruct (method_raises env k h Close); reflexivity.
Qed.

Lemma discard_existing_socket (s : state) :
  socket (self (after (discard_existing env s))) = None.
Proof.
  rewrite discard_existing_eq. unfold after. simpl.
  destruct (socket (self s)) eqn:E; [reflexivity | exact E].
Qed.

Lemma discard_existing_next (s : state) :
  next_handle (after (discard_existing env s)) = next_handle s.
Proof.
  rewrite discard_existing_eq. unfold after. simpl.
  destruct (socket (self s)); reflexivity.
Qed.

(** [connect] on an object that holds no socket: it returns [False] without
    having created a socket, or it has created the socket [next_handle s],
    stored it in the object and called the first [k] of [setup_calls] on
    it, all of them when it returns [True]. *)
Lemma connect_spec (s : state) :
  socket (self s) = None ->
  exists (b : bool) (t : list event),
    connect env s = (Ok b, after (connect env s), t) /\
    connected (self (after (connect env s))) = b /\
    ((b = false /\ t = [] /\
      socket (self (after (connect env s))) = None /\
      next_handle (after (connect env s)) = next_handle s) \/
     (exists config k,
        get_config env = Ok config /\
        (b = true -> k = 6) /\
        t = NewSocket (next_handle s)
            :: map (Call (next_handle s)) (take k (setup_calls config)) /\
        socket (self (after (connect env s))) = Some (next_handle s) /\
        next_handle (after (connect env s)) = S (next_handle s))).
Proof.
  destruct s as [[sock c] n k0]. simpl. intros ->.
  unfold connect, close_existing, after, setup_calls. unfold_monad. simpl.
  destruct (get_config env) as [config | e]; simpl;
    [| exists false, []; repeat split; left; repeat split ].
  destruct (socket_socket env); simpl;
    [ exists false, []; repeat split; left; repeat split |].
  repeat
    match goal with
    | |- context [method_raises env ?k ?h ?c] =>
        destruct (method_raises env k h c); simpl
    end;
    eexists _, _; (split; [reflexivity |]); (split; [reflexivity |]);
    right; exists config;
    first
      [ exists 1; repeat split; discriminate
      | exists 2; repeat split; discriminate
      | exists 3; repeat split; discriminate
      | exists 4; repeat split; discriminate
      | exists 5; repeat split; discriminate
      | exists 6; repeat split; first [discriminate | reflexivity] ].
Qed.

(** [receive_full_response] leaves the object as it is and touches the
    socket it was given only. *)
Lemma receive_full_response_spec (sock : handle) (size : Z) (s : state) :
  exists r s' t,
    receive_full_response env sock size s = (r, s', t) /\
    self s' = self s /\ next_handle s' = next_handle s /\
    Forall (on_handle sock) t.
Proof.
  unfold receive_full_response. unfold_monad.
  assert (Hrecv : forall n,
    Forall (on_handle sock) (replicate n (Call sock (Recv size)))).
  { intros n. apply Forall_replicate. eexists; reflexivity. }
  assert (Hset : on_handle sock (Call sock (SetTimeout 5))).
  { eexists; reflexivity. }
  destruct (method_raises env (clock s) sock (SetTimeout 5)).
  { eexists _, _, _. split; [reflexivity |]. repeat split.
    repeat constructor. exact Hset. }
  destruct (read_loop (recv_script env) []) as [[r chunks] reads].
  specialize (Hrecv reads).
  destruct r as [[data |] | e]; simpl;
    [ | | destruct (is_timeout e); [destruct (on_timeout chunks) |] ];
    eexists _, _, _; (split; [reflexivity |]); repeat split;
    constructor; try exact Hset;
    rewrite ?app_nil_r; exact Hrecv.
Qed.

Lemma exchange_spec (command : str) (params : value) (s : state) (h : handle) :
  socket (self s) = Some h ->
  exists r s' t,
    exchange env command params s = (r, s', t) /\
    self s' = self s /\ next_handle s' = next_handle s /\
    Forall (on_handle h) t.
Proof.
  intros Hsock. unfold exchange. unfold_monad.
  destruct (json_dumps _) as [command_json | e]; simpl;
    [| eexists _, _, _; split; [reflexivity | repeat split; constructor] ].
  rewrite Hsock.
  destruct (str_encode command_json) as [payload | e]; simpl;
    [| eexists _, _, _; split; [reflexivity | repeat split; constructor] ].
  assert (Hsend : on_handle h (Call h (SendAll payload))).
  { eexists; reflexivity. }
  destruct (method_raises env (clock s) h (SendAll payload)); simpl.
  { eexists _, _, _. split; [reflexivity |]. repeat split.
    repeat constructor. exact Hsend. }
  destruct (receive_full_response_spec h 4096
              (mkState (self s) (next_handle s) (S (clock s))))
    as (r & s' & t & -> & Hself & Hnext & Ht).
  simpl in Hself, Hnext.
  destruct r as [response_data | e]; simpl;
    [| eexists _, _, _; split; [reflexivity |]; repeat split; try assumption;
       constructor; assumption ].
  destruct (decode_response response_data) as [decoded | e]; simpl;
    [| eexists _, _, _; split; [reflexivity |]; repeat split; try assumption;
       constructor; [assumption | rewrite app_nil_r; assumption] ].
  eexists _, _, _. split; [reflexivity |]. repeat split; try assumption.
  constructor; [assumption |]. rewrite !app_nil_r. assumption.
Qed.

(** The [try] statement of [send_command] (lines 241-300), run on an
    object that holds the socket [h]. *)
Lemma try_statement_eq (command : str) (params : value) (s : state) (h : handle) :
  socket (self s) = Some h ->
  try_except
    (response <- exchange env command params ;;
     response <- lift (normalize response) ;;
     swallow (self_socket_call env Close) ;;
     set_socket None ;;
     set_connected false ;;
     ret response)
    (fun e =>
       set_connected false ;;
       swallow (self_socket_call env Close) ;;
       set_socket None ;;
       ret (error_result (VStr (exc_text e)))) s =
  (Ok (reply (result (exchange env command params s))),
   mkState (mkConnection None false) (next_handle s)
     (S (clock (after (exchange env command params s)))),
   events (exchange env command params s) ++ [Call h Close]).
Proof.
  intros Hsock.
  destruct (exchange_spec command params s h Hsock)
    as (r & s' & t & E & Hself & Hnext & _).
  unfold try_except. unfold bind at 1. rewrite E.
  unfold result, after, events, reply. simpl.
  destruct s' as [[sock' c'] n' k']. simpl in Hself, Hnext.
  rewrite <- Hself in Hsock. simpl in Hsock. subst sock' n'.
  destruct r as [response | e]; simpl.
  - destruct (normalize response) as [v | e]; unfold_monad; simpl;
      destruct (method_raises env k' h Close); simpl;
      rewrite ?app_nil_r; reflexivity.
  - unfold_monad. simpl.
    destruct (method_raises env k' h Close); simpl; reflexivity.
Qed.

(** The whole of [send_command], in terms of its steps. *)
Lemma send_command_spec (command : str) (params : value) (s : state) :
  let s0 := after (discard_existing env s) in
  let s1 := after (connect env s0) in
  exists (b : bool) (t1 : list event),
    connect env s0 = (Ok b, s1, t1) /\
    if b then
      send_command env command params s =
        (Ok (reply (result (exchange env command params s1))),
         mkState (mkConnection None false) (next_handle s1)
           (S (clock (after (exchange env command params s1)))),
         discard_events s ++ t1
         ++ events (exchange env command params s1)
         ++ [Call (next_handle s) Close])
    else
      send_command env command params s =
        (Ok VNone, s1, discard_events s ++ t1).
Proof.
  intros s0 s1.
  destruct (connect_spec s0 (discard_existing_socket s)) as (b & t1 & E & Hc & H).
  exists b, t1. split; [exact E |].
  assert (Ed : discard_existing env s = (Ok tt, s0, discard_events s)).
  { subst s0. rewrite discard_existing_eq. reflexivity. }
  destruct b;
    unfold send_command; unfold bind at 1; rewrite Ed;
    unfold bind at 1; rewrite E; fold s1; simpl.
  - destruct H as [(? & _) | (config & k & _ & _ & _ & Hsock & _)]; [discriminate |].
    fold s1 in Hsock. subst s0. rewrite discard_existing_next in Hsock.
    rewrite (try_statement_eq command params s1 _ Hsock). reflexivity.
  - unfold ret. rewrite app_nil_r. reflexivity.
Qed.

Lemma on_handle_In (h h' : handle) (c : sock_call) (t : list event) :
  Forall (on_handle h) t -> In (Call h' c) t -> h' = h.
Proof.
  intros Hall Hin. rewrite List.Forall_forall in Hall.
  destruct (Hall _ Hin) as (c' & [= -> _]). reflexivity.
Qed.

Lemma on_handle_not_new (h h' : handle) (t : list event) :
  Forall (on_handle h) t -> ~ In (NewSocket h') t.
Proof.
  intros Hall Hin. rewrite List.Forall_forall in Hall.
  destruct (Hall _ Hin) as (c' & [=]).
Qed.

Lemma discard_events_In (s : state) (ev : event) :
  In ev (discard_events s) -> exists h, socket (self s) = Some h /\ ev = Call h Close.
Proof.
  unfold discard_events. destruct (socket (self s)) as [h |]; simpl; [| tauto].
  intros [<- | []]. eauto.
Qed.

(** The sockets that one call of [send_command] deals with: the one it
    finds in the object, which it only closes, and the one it creates. *)
Lemma send_command_footprint (command : str) (params : value) (s : state) :
  let r := send_command env command params s in
  (forall h, In (NewSocket h) (events r) ->
     h = next_handle s /\ next_handle (after r) = S (next_handle s)) /\
  (forall h c, In (Call h c) (events r) ->
     (h = next_handle s /\ In (NewSocket h) (events r)) \/
     (c = Close /\ socket (self s) = Some h)) /\
  connected (self (after r)) = false /\
  (socket (self (after r)) = None \/
   (socket (self (after r)) = Some (next_handle s) /\ result r = Ok VNone)).
Proof.
  intros r. subst r.
  destruct (send_command_spec command params s) as (b & t1 & E & Hsend).
  set (s0 := after (discard_existing env s)) in *.
  set (s1 := after (connect env s0)) in *.
  destruct (connect_spec s0 (discard_existing_socket s)) as (b' & t1' & E' & Hc & H).
  fold s1 in E', Hc, H. rewrite E in E'. injection E' as <- <-.
  assert (Hn : next_handle s0 = next_handle s) by apply discard_existing_next.
  rewrite Hn in H.
  destruct b; rewrite Hsend; unfold events, after, result; simpl.
  - destruct H as [(? & _) | (config & k & _ & _ & -> & Hsock & Hnext)];
      [discriminate |].
    destruct (exchange_spec command params s1 _ Hsock)
      as (rx & sx & tx & Ex & _ & _ & Hx).
    rewrite Ex. simpl.
    assert (Hcalls : Forall (on_handle (next_handle s))
                       (map (Call (next_handle s)) (take k (setup_calls config)))).
    { rewrite List.Forall_forall. intros ev (c & <- & _)%in_map_iff.
      eexists; reflexivity. }
    refine (conj _ (conj _ (conj _ _))).
    + intros h Hin. split; [| exact Hnext].
      rewrite in_app_iff in Hin. simpl in Hin. rewrite !in_app_iff in Hin.
      simpl in Hin.
      destruct Hin as [Hin | [[= ->] | [Hin | [Hin | [[=] | []]]]]].
      * apply discard_events_In in Hin as (? & _ & [=]).
      * reflexivity.
      * destruct (on_handle_not_new _ _ _ Hcalls Hin).
      * destruct (on_handle_not_new _ _ _ Hx Hin).
    + intros h c Hin.
      rewrite in_app_iff in Hin. simpl in Hin. rewrite !in_app_iff in Hin.
      simpl in Hin.
      destruct Hin as [Hin | [[=] | [Hin | [Hin | [[= -> ->] | []]]]]].
      * apply discard_events_In in Hin as (h' & Hs & [= -> ->]). right. auto.
      * left. split; [exact (on_handle_In _ _ _ _ Hcalls Hin) |].
        rewrite (on_handle_In _ _ _ _ Hcalls Hin).
        apply in_or_app. right. left. reflexivity.
      * left. split; [exact (on_handle_In _ _ _ _ Hx Hin) |].
        rewrite (on_handle_In _ _ _ _ Hx Hin).
        apply in_or_app. right. left. reflexivity.
      * left. split; [reflexivity |].
        apply in_or_app. right. left. reflexivity.
    + reflexivity.
    + left. reflexivity.
  - refine (conj _ (conj _ (conj _ _))).
    + intros h Hin. rewrite in_app_iff in Hin.
      destruct Hin as [Hin | Hin];
        [apply discard_events_In in Hin as (? & _ & [=]) |].
      destruct H as [(_ & -> & _) | (config & k & _ & _ & -> & _ & Hnext)];
        [destruct Hin |].
      split; [| exact Hnext].
      destruct Hin as [[= ->] | (c & [=] & _)%in_map_iff]. reflexivity.
    + intros h c Hin. rewrite in_app_iff in Hin.
      destruct Hin as [Hin | Hin].
      * apply discard_events_In in Hin as (h' & Hs & [= -> ->]). right. auto.
      * destruct H as [(_ & -> & _) | (config & k & _ & _ & -> & _ & _)];
          [destruct Hin |].
        destruct Hin as [[=] | (c' & [= <- <-] & _)%in_map_iff].
        left. split; [reflexivity |].
        apply in_or_app. right. left. reflexivity.
    + exact Hc.
    + destruct H as [(_ & _ & Hs & _) | (config & k & _ & _ & _ & Hs & _)];
        [left | right]; auto.
Qed.

Lemma send_command_parsed (command : str) (params : value) (s : state) (v : value) :
  parsed_response env command params s = Some v ->
  result (send_command env command params s) = Ok (reply (Ok v)).
Proof.
  unfold parsed_response. intros Hp.
  destruct (send_command_spec command params s) as (b & t1 & E & Hsend).
  set (s0 := after (discard_existing env s)) in *.
  set (s1 := after (connect env s0)) in *.
  assert (Ed : discard_existing env s = (Ok tt, s0, discard_events s)).
  { subst s0. rewrite discard_existing_eq. reflexivity. }
  unfold bind in Hp. rewrite Ed, E in Hp.
  destruct b; [| discriminate].
  rewrite Hsend. unfold result. simpl.
  destruct (exchange env command params s1) as [[[response | e] s2] t2];
    [| discriminate].
  injection Hp as ->. reflexivity.
Qed.

(** C2, as amended. When the [connect()] that [send_command] performs
    fails, [send_command] returns [None] at once: it leaves the object as
    [connect()] left it, writes nothing to a socket and reads nothing from
    one, and does not try to connect a second time. *)
Theorem failed_connect_returns_None (command : str) (params : value)
    (s s' : state) (t : list event) :
  (discard_existing env ;; connect env) s = (Ok false, s', t) ->
  send_command env command params s = (Ok VNone, s', t) /\
  Forall (fun ev => is_io ev = false) t /\
  (length (List.filter is_connect t) <= 1)%nat.
Proof.
  intros Hc.
  destruct (send_command_spec command params s) as (b & t1 & E & Hsend).
  set (s0 := after (discard_existing env s)) in *.
  set (s1 := after (connect env s0)) in *.
  assert (Ed : discard_existing env s = (Ok tt, s0, discard_events s)).
  { subst s0. rewrite discard_existing_eq. reflexivity. }
  destruct (connect_spec s0 (discard_existing_socket s)) as (b' & t1' & E' & _ & H).
  fold s1 in E', H. rewrite E in E'. injection E' as <- <-.
  unfold bind in Hc. rewrite Ed, E in Hc. injection Hc as -> <- <-.
  split; [exact Hsend |].
  assert (Hd : Forall (fun ev => is_io ev = false) (discard_events s)
               /\ List.filter is_connect (discard_events s) = []).
  { unfold discard_events. destruct (socket (self s)); simpl; auto. }
  destruct Hd as [Hd1 Hd2].
  rewrite List.filter_app, Hd2. simpl.
  destruct H as [(_ & -> & _) | (config & k & _ & _ & -> & _)].
  { rewrite app_nil_r. simpl. split; [exact Hd1 | lia]. }
  split.
  - apply Forall_app. split; [exact Hd1 |].
    constructor; [reflexivity |].
    rewrite List.Forall_forall. intros ev (c & <- & Hin)%in_map_iff.
    apply list_elem_of_In, elem_of_take in Hin as (i & Hi & _).
    unfold setup_calls in Hi.
    do 6 (destruct i as [| i]; [injection Hi as <-; reflexivity |]).
    discriminate.
  - unfold setup_calls.
    do 6 (destruct k as [| k]; [simpl; lia |]).
    simpl. rewrite take_nil. simpl. lia.
Qed.

(** C4, as amended. When the response of the peer parses as a mapping
    with ["status": "error"], a field ["message"] and no field ["error"],
    [send_command] returns that mapping with one entry added, ["error"]
    bound to the value of ["message"]. The field ["message"] and every
    other field of the response are kept. *)
Theorem legacy_message_copied_to_error (command : str) (params : value)
    (s : state) (d : gmap string value) (m : value) :
  parsed_response env command params s = Some (VDict d) ->
  d !! "status" = Some (VStr "error") ->
  d !! "message" = Some m ->
  d !! "error" = None ->
  result (send_command env command params s) = Ok (VDict (<["error" := m]> d)).
Proof.
  intros Hp Hstatus Hmessage Herror.
  rewrite (send_command_parsed _ _ _ _ Hp).
  unfold reply, normalize, normalize_dict, error_message_of, dict_get.
  rewrite Hstatus, Hmessage, Herror. reflexivity.
Qed.

(** C10. When the response of the peer parses as a value that is not a
    mapping, [send_command] does not return that value: the call of
    [response.get] raises, and the result is the canonical failure whose
    text is that of the exception. *)
Theorem non_mapping_response_is_failure (command : str) (params : value)
    (s : state) (v : value) :
  parsed_response env command params s = Some v ->
  (forall d, v <> VDict d) ->
  result (send_command env command params s) =
    Ok (error_result
          (VStr ("'" +:+ type_name v +:+ "' object has no attribute 'get'"))) /\
  result (send_command env command params s) <> Ok v.
Proof.
  intros Hp Hv.
  rewrite (send_command_parsed _ _ _ _ Hp).
  assert (E : reply (Ok v) =
              error_result
                (VStr ("'" +:+ type_name v +:+ "' object has no attribute 'get'"))).
  { destruct v; try reflexivity. destruct (Hv d eq_refl). }
  rewrite E. split; [reflexivity |].
  intros [= Hd]. exact (Hv _ (eq_sym Hd)).
Qed.

End Properties.


(** ** Receiving *)

Section Receiving.

Context {codec : Codec}.

Lemma read_loop_returns_json (script : list (outcome bytes))
    (chunks chunks' : list bytes) (data : bytes) (reads : nat) :
  read_loop script chunks = (Ok (Some data), chunks', reads) ->
  parses data = true.
Proof.
  revert chunks chunks' reads.
  induction script as [| [chunk | e] rest IH]; intros chunks chunks' reads;
    simpl; [discriminate | | discriminate].
  destruct chunk as [| b chunk].
  { destruct chunks; discriminate. }
  destruct (bytes_decode (concat (chunks ++ [b :: chunk]))) as [decoded | e] eqn:Ed;
    [| discriminate].
  destruct (json_loads decoded) as [v | e] eqn:El.
  - intros [= <- _ _]. unfold parses, parse. rewrite Ed, El. reflexivity.
  - destruct (read_loop rest (chunks ++ [b :: chunk])) as [[r c] n] eqn:Er.
    intros [= -> -> _]. exact (IH _ _ _ Er).
Qed.

(** The loop is left by [break] only with bytes that were collected and
    do not parse. *)
Lemma read_loop_break (script : list (outcome bytes))
    (chunks chunks' : list bytes) (reads : nat) :
  chunks = [] \/ parses (concat chunks) = false ->
  read_loop script chunks = (Ok None, chunks', reads) ->
  chunks' <> [] /\ parses (concat chunks') = false.
Proof.
  revert chunks chunks' reads.
  induction script as [| [chunk | e] rest IH]; intros chunks chunks' reads Hinv;
    simpl; [discriminate | | discriminate].
  destruct chunk as [| b chunk].
  { destruct chunks as [| c chunks]; [discriminate |].
    intros [= <- _]. destruct Hinv as [[=] | Hinv]. split; [discriminate | exact Hinv]. }
  destruct (bytes_decode (concat (chunks ++ [b :: chunk]))) as [decoded | e] eqn:Ed;
    [| discriminate].
  destruct (json_loads decoded) as [v | e] eqn:El; [discriminate |].
  destruct (read_loop rest (chunks ++ [b :: chunk])) as [[r c] n] eqn:Er.
  intros [= -> -> _]. refine (IH _ _ _ (or_intror _) Er).
  unfold parses, parse. rewrite Ed, El. reflexivity.
Qed.

(** When the peer closes after some bytes have arrived,
    [receive_full_response] returns [None], and the bytes it drops are not
    valid JSON. *)
Lemma receive_returns_None (env : environment) (sock : handle) (size : Z)
    (s : state) :
  result (receive_full_response env sock size s) = Ok None ->
  exists chunks reads,
    read_loop (recv_script env) [] = (Ok None, chunks, reads) /\
    chunks <> [] /\ parses (concat chunks) = false.
Proof.
  unfold receive_full_response, result.
  cbv beta iota zeta delta [bind call ret raise lift].
  destruct (method_raises env (clock s) sock (SetTimeout 5)); [discriminate |].
  destruct (read_loop (recv_script env) []) as [[r chunks] reads] eqn:Er.
  destruct r as [[data' |] | e]; simpl.
  - discriminate.
  - intros _. exists chunks, reads. split; [reflexivity |].
    exact (read_loop_break _ _ _ _ (or_introl eq_refl) Er).
  - destruct (is_timeout e); simpl; [| discriminate].
    unfold on_timeout. destruct chunks as [| c chunks]; [discriminate |].
    destruct (parse (concat (c :: chunks))); discriminate.
Qed.

(** An exception that leaves the loop was raised by a read, or is the
    timeout of a read past the end of the script, or reports a peer that
    closed before sending anything, or was raised by the decoder. *)
Lemma read_loop_raises (script : list (outcome bytes))
    (chunks chunks' : list bytes) (e : exn) (reads : nat) :
  read_loop script chunks = (Raise e, chunks', reads) ->
  In (Raise e) script \/ e = socket_timeout \/ e = closed_before_data \/
  exists data, bytes_decode data = Raise e.
Proof.
  revert chunks chunks' reads.
  induction script as [| [chunk | e'] rest IH]; intros chunks chunks' reads; simpl.
  - intros [= <- _ _]. auto.
  - destruct chunk as [| b chunk].
    { destruct chunks; [intros [= <- _ _]; auto | discriminate]. }
    destruct (bytes_decode (concat (chunks ++ [b :: chunk]))) as [decoded | e''] eqn:Ed.
    + destruct (json_loads decoded); [discriminate |].
      destruct (read_loop rest (chunks ++ [b :: chunk])) as [[r c] n] eqn:Er.
      intros [= -> _ _].
      destruct (IH _ _ _ Er) as [H | H]; [left; right; exact H | right; exact H].
    + intros [= <- _ _]. right. right. right. eauto.
  - intros [= <- _ _]. left. left. reflexivity.
Qed.

Lemma on_timeout_returns_json (chunks : list bytes) (data : bytes) :
  on_timeout chunks = Ok (Some data) -> parses data = true.
Proof.
  unfold on_timeout, parses. destruct chunks as [| c chunks]; [discriminate |].
  generalize (concat (c :: chunks)). intros d.
  destruct (parse d) eqn:E; [| discriminate].
  intros [= <-]. rewrite E. reflexivity.
Qed.

(** Whatever the reads do, a buffer that [receive_full_response] returns
    decodes and parses as JSON. *)
Lemma receive_returns_json (env : environment) (sock : handle) (size : Z)
    (s : state) (data : bytes) :
  result (receive_full_response env sock size s) = Ok (Some data) ->
  parses data = true.
Proof.
  unfold receive_full_response, result.
  cbv beta iota zeta delta [bind call ret raise lift].
  destruct (method_raises env (clock s) sock (SetTimeout 5)); [discriminate |].
  destruct (read_loop (recv_script env) []) as [[r chunks] reads] eqn:Er.
  destruct r as [[data' |] | e]; simpl.
  - intros [= <-]. exact (read_loop_returns_json _ _ _ _ _ Er).
  - discriminate.
  - destruct (is_timeout e); simpl; [| discriminate].
    destruct (on_timeout chunks) as [[data' |] | e'] eqn:Et; simpl;
      [| discriminate | discriminate].
    intros [= <-]. exact (on_timeout_returns_json _ _ Et).
Qed.

(** C8. When a read times out, the handler of lines 209-220 decides, and
    what it gives is what [receive_full_response] gives. Whatever chunks
    have been accumulated, the handler tries once more to parse them: it
    returns them, joined, when there are some and they parse as JSON, and
    it raises the timeout failure when they do not parse or when there are
    none. In no case is a buffer returned that is not valid JSON. *)
Theorem timeout_returns_json_or_raises (chunks : list bytes) :
  ((chunks <> [] /\ parses (concat chunks) = true /\
    on_timeout chunks = Ok (Some (concat chunks))) \/
   ((chunks = [] \/ parses (concat chunks) = false) /\
    on_timeout chunks = Raise timeout_failure)) /\
  (forall (env : environment) (sock : handle) (size : Z) (s : state)
          (e : exn) (reads : nat),
     method_raises env (clock s) sock (SetTimeout 5) = None ->
     read_loop (recv_script env) [] = (Raise e, chunks, reads) ->
     is_timeout e = true ->
     result (receive_full_response env sock size s) = on_timeout chunks /\
     forall data,
       result (receive_full_response env sock size s) = Ok (Some data) ->
       parses data = true).
Proof.
  split.
  - unfold on_timeout, parses. destruct chunks as [| c chunks].
    { right. auto. }
    destruct (parse (concat (c :: chunks))).
    + left. repeat split. discriminate.
    + right. auto.
  - intros env sock size s e reads Hset Hloop Htimeout. split.
    + unfold receive_full_response, result.
      cbv beta iota zeta delta [bind call ret raise lift].
      rewrite Hset, Hloop. simpl. rewrite Htimeout.
      destruct (on_timeout chunks) as [[data |] | e']; reflexivity.
    + intros data. apply receive_returns_json.
Qed.

(** All the ways in which [receive_full_response] ends: with a buffer of
    valid JSON; with [None], when the peer closed after bytes that do not
    parse; with one of its two failures; or with an exception that
    [settimeout], a read or the decoder raised. *)
Lemma receive_outcomes (env : environment) (sock : handle) (size : Z) (s : state) :
  let r := result (receive_full_response env sock size s) in
  (exists data, r = Ok (Some data) /\ parses data = true) \/
  r = Ok None \/
  r = Raise closed_before_data \/
  r = Raise timeout_failure \/
  (exists e, r = Raise e /\
     (method_raises env (clock s) sock (SetTimeout 5) = Some e \/
      (In (Raise e) (recv_script env) /\ is_timeout e = false) \/
      exists data, bytes_decode data = Raise e)).
Proof.
  intros r.
  destruct r as [[data |] | e] eqn:Er.
  - left. exists data. split; [reflexivity |].
    exact (receive_returns_json _ _ _ _ _ Er).
  - right. left. reflexivity.
  - right. right. subst r. revert Er. unfold receive_full_response, result.
    cbv beta iota zeta delta [bind call ret raise lift].
    destruct (method_raises env (clock s) sock (SetTimeout 5)) as [e0 |] eqn:Es.
    { simpl. intros [= <-]. right. right. exists e0. auto. }
    destruct (read_loop (recv_script env) []) as [[r chunks] reads] eqn:El.
    destruct r as [[data' |] | e']; simpl; [discriminate | discriminate |].
    destruct (is_timeout e') eqn:Ht; simpl.
    + unfold on_timeout. destruct chunks as [| c chunks].
      { intros [= <-]. auto. }
      destruct (parse (concat (c :: chunks))); [discriminate |].
      intros [= <-]. auto.
    + intros [= <-].
      destruct (read_loop_raises _ _ _ _ _ El) as [H | [-> | [-> | H]]].
      * right. right. exists e'. auto.
      * discriminate.
      * left. reflexivity.
      * right. right. exists e'. auto.
Qed.

(** Bytes that the loop has kept never parse: had they parsed, the loop
    would have returned them. *)
Lemma read_loop_raise_unparsed (script : list (outcome bytes))
    (chunks chunks' : list bytes) (e : exn) (reads : nat) :
  chunks = [] \/ parses (concat chunks) = false ->
  read_loop script chunks = (Raise e, chunks', reads) ->
  chunks' = [] \/ parses (concat chunks') = false.
Proof.
  revert chunks chunks' reads.
  induction script as [| [chunk | e'] rest IH]; intros chunks chunks' reads Hinv; simpl.
  - intros [= _ <- _]. exact Hinv.
  - destruct chunk as [| b chunk].
    { destruct chunks; [intros [= _ <- _]; auto | discriminate]. }
    destruct (bytes_decode (concat (chunks ++ [b :: chunk]))) as [decoded | e''] eqn:Ed.
    + destruct (json_loads decoded) as [v | e''] eqn:El; [discriminate |].
      destruct (read_loop rest (chunks ++ [b :: chunk])) as [[r c] n] eqn:Er.
      intros [= -> -> _]. refine (IH _ _ _ (or_intror _) Er).
      unfold parses, parse. rewrite Ed, El. reflexivity.
    + intros [= _ <- _]. right. unfold parses, parse. rewrite Ed. reflexivity.
  - intros [= _ <- _]. exact Hinv.
Qed.

(** So the last attempt of the timeout handler cannot succeed: after a
    timeout [receive_full_response] always raises the timeout failure. *)
Lemma timeout_always_raises (env : environment) (sock : handle) (size : Z)
    (s : state) (chunks : list bytes) (e : exn) (reads : nat) :
  method_raises env (clock s) sock (SetTimeout 5) = None ->
  read_loop (recv_script env) [] = (Raise e, chunks, reads) ->
  is_timeout e = true ->
  result (receive_full_response env sock size s) = Raise timeout_failure.
Proof.
  intros Hset Hloop Htimeout.
  pose proof (read_loop_raise_unparsed _ _ _ _ _ (or_introl eq_refl) Hloop) as Hinv.
  unfold receive_full_response, result.
  cbv beta iota zeta delta [bind call ret raise lift].
  rewrite Hset, Hloop. simpl. rewrite Htimeout. simpl.
  unfold on_timeout. destruct chunks as [| c chunks]; [reflexivity |].
  destruct Hinv as [[=] | Hinv]. unfold parses in Hinv.
  destruct (parse (concat (c :: chunks))); [discriminate | reflexivity].
Qed.

End Receiving.

(** ** One connection for each command *)

Section Consecutive.

Context {codec : Codec}.

(** C9. Of two consecutive calls of [send_command] on one object, the
    second starts by closing and clearing the socket the first has left, if
    any, and then performs its own [connect()]. Every socket it then works
    with was created by that [connect()]; to a socket that the first call
    created it does nothing, except closing it when the first call left it
    in the object. *)
Theorem consecutive_commands_reconnect (env1 env2 : environment)
    (command1 command2 : str) (params1 params2 : value) (s : state) :
  let first := send_command env1 command1 params1 s in
  let discarded := discard_existing env2 (after first) in
  let second := send_command env2 command2 params2 (after first) in
  (events discarded = discard_events (after first) /\
   socket (self (after discarded)) = None) /\
  (exists rest,
     events second =
     events discarded ++ events (connect env2 (after discarded)) ++ rest) /\
  (forall h c, In (Call h c) (events second) ->
     In (NewSocket h) (events second) \/
     (c = Close /\ socket (self (after first)) = Some h)) /\
  (forall h, In (NewSocket h) (events first) -> ~ In (NewSocket h) (events second)) /\
  (forall h c, In (NewSocket h) (events first) -> In (Call h c) (events second) ->
     c = Close).
Proof.
  intros first discarded second.
  destruct (send_command_footprint env1 command1 params1 s) as (F1 & _).
  destruct (send_command_footprint env2 command2 params2 (after first))
    as (G1 & G2 & _).
  fold first in F1. fold second in G1, G2.
  assert (Hfresh : forall h, In (NewSocket h) (events first) ->
                     ~ In (NewSocket h) (events second)).
  { intros h Hin1 Hin2.
    destruct (F1 h Hin1) as [-> Hn]. destruct (G1 _ Hin2) as [Hh _]. lia. }
  assert (Hcalls : forall h c, In (Call h c) (events second) ->
                     In (NewSocket h) (events second) \/
                     (c = Close /\ socket (self (after first)) = Some h)).
  { intros h c Hin. destruct (G2 h c Hin) as [[_ H] | H]; auto. }
  refine (conj _ (conj _ (conj Hcalls (conj Hfresh _)))).
  - split.
    + subst discarded. rewrite discard_existing_eq. reflexivity.
    + apply discard_existing_socket.
  - destruct (send_command_spec env2 command2 params2 (after first))
      as (b & t1 & E & Hsend).
    fold discarded in E, Hsend. subst second.
    assert (Ed : events discarded = discard_events (after first)).
    { subst discarded. rewrite discard_existing_eq. reflexivity. }
    rewrite E, Ed. destruct b; rewrite Hsend; unfold events; simpl.
    + eexists. reflexivity.
    + exists []. rewrite app_nil_r. reflexivity.
  - intros h c Hin1 Hin2.
    destruct (Hcalls h c Hin2) as [Hnew | [Hc _]]; [| exact Hc].
    destruct (Hfresh h Hin1 Hnew).
Qed.

End Consecutive.

(** ** The two error shapes of the peer *)

Section Shapes.

Context {codec : Codec}.

(** C6. The two error shapes of the peer give the same result: a response
    that parses as [{"status": "error", "error": X}] and a response that
    parses as [{"success": false, "message": X}] both make [send_command]
    return [{"status": "error", "error": X}]. *)
Theorem error_shapes_normalize_alike (env env' : environment)
    (command command' : str) (params params' : value) (s s' : state) (X : str) :
  parsed_response env command params s =
    Some (VDict (<["status" := VStr "error"]> (<["error" := VStr X]> ∅))) ->
  parsed_response env' command' params' s' =
    Some (VDict (<["success" := VBool false]> (<["message" := VStr X]> ∅))) ->
  result (send_command env command params s) = Ok (error_result (VStr X)) /\
  result (send_command env' command' params' s') = Ok (error_result (VStr X)).
Proof.
  intros Hp Hp'.
  rewrite (send_command_parsed _ _ _ _ _ Hp), (send_command_parsed _ _ _ _ _ Hp').
  unfold reply, normalize, normalize_dict, error_message_of, dict_get.
  split; simpl_lookups; reflexivity.
Qed.

End Shapes.

(** ** The commands run against concrete peers *)

Section Examples.

#[local] Existing Instance Reference.codec.

Example success_returned_unchanged :
  send_command actors_response "get_actors_in_level" (VDict ∅) initial =
    (Ok (VDict (<["success" := VBool true]>
                (<["result" := VDict (<["actors" := VList []]> ∅)]> ∅))),
     mkState (mkConnection None false) 1 10,
     NewSocket 0 :: map (Call 0) (setup_calls default_config)
     ++ [Call 0 (SendAll (utf8 (json_text
                   "{'type': 'get_actors_in_level', 'params': {}}")));
         Call 0 (SetTimeout 5); Call 0 (Recv 4096); Call 0 Close]).
Proof. vm_compute. reflexivity. Qed.

Example closed_before_data_is_failure :
  result (send_command silent_close "get_actors_in_level" (VDict ∅) initial) =
    Ok (error_result (VStr "Connection closed before receiving data")).
Proof. vm_compute. reflexivity. Qed.

Example fragments_are_accumulated :
  result (receive_full_response fragments 0 4096 initial) =
    Ok (Some (utf8 (json_text "{'success': true}"))) /\
  events (receive_full_response fragments 0 4096 initial) =
    [Call 0 (SetTimeout 5); Call 0 (Recv 4096); Call 0 (Recv 4096);
     Call 0 (Recv 4096)].
Proof. split; vm_compute; reflexivity. Qed.

Example truthiness :
  map truthy [VNone; VBool false; VInt 0; VStr EmptyString; VList []; VDict ∅;
              VStr "X"; VInt 2; VList [VNone]; VDict (<["a" := VNone]> ∅)] =
  [false; false; false; false; false; false; true; true; true; true].
Proof. vm_compute. reflexivity. Qed.

(** C1. The peer closes the socket after a part of the response has
    arrived: [receive_full_response] leaves its loop and returns [None],
    neither a buffer of valid JSON nor one of its two failures, and
    [send_command] reports the attribute error that [None] then causes. *)
Theorem peer_close_after_partial_data_returns_None :
  result (receive_full_response truncated 0 4096 initial) = Ok None /\
  events (receive_full_response truncated 0 4096 initial) =
    [Call 0 (SetTimeout 5); Call 0 (Recv 4096); Call 0 (Recv 4096)] /\
  result (send_command truncated "get_actors_in_level" (VDict ∅) initial) =
    Ok (error_result (VStr "'NoneType' object has no attribute 'decode'")).
Proof. repeat split; vm_compute; reflexivity. Qed.

(** C2, as stated, fails: nothing listens on the port, [connect()] returns
    [False], and [send_command] returns [None], which is not a failure
    marker. *)
Lemma refused_connection_returns_None :
  result ((discard_existing refused ;; connect refused) initial) = Ok false /\
  result (send_command refused "get_actors_in_level" (VDict ∅) initial) = Ok VNone /\
  forall message,
    result (send_command refused "get_actors_in_level" (VDict ∅) initial)
    <> Ok (error_result message).
Proof.
  split; [reflexivity |]. split; [reflexivity |].
  intros message. vm_compute. discriminate.
Qed.

Lemma failed_connect_returns_None_witness :
  (discard_existing refused ;; connect refused) initial =
    (Ok false, mkState (mkConnection (Some 0) false) 1 6,
     NewSocket 0 :: map (Call 0) (setup_calls default_config)) /\
  send_command refused "get_actors_in_level" (VDict ∅) initial =
    (Ok VNone, mkState (mkConnection (Some 0) false) 1 6,
     NewSocket 0 :: map (Call 0) (setup_calls default_config)) /\
  Forall (fun ev => is_io ev = false)
    (NewSocket 0 :: map (Call 0) (setup_calls default_config)) /\
  (length (List.filter is_connect
             (NewSocket 0 :: map (Call 0) (setup_calls default_config))) <= 1)%nat.
Proof.
  assert (H : (discard_existing refused ;; connect refused) initial =
              (Ok false, mkState (mkConnection (Some 0) false) 1 6,
               NewSocket 0 :: map (Call 0) (setup_calls default_config)))
    by reflexivity.
  split; [exact H |].
  exact (failed_connect_returns_None refused "get_actors_in_level" (VDict ∅)
           initial _ _ H).
Defined.

(** C3. Nothing listens on the port: after [send_command] the object still
    holds the socket that [connect()] created. *)
Theorem refused_connection_leaves_socket :
  self (after (send_command refused "get_actors_in_level" (VDict ∅) initial)) =
    mkConnection (Some 0) false.
Proof. reflexivity. Qed.

(** C4, as stated, fails: the result for the legacy shape keeps the field
    ["message"], so it is not the marker of two fields. *)
Lemma legacy_message_is_retained :
  parsed_response legacy_error "get_actors_in_level" (VDict ∅) initial =
    Some (VDict (<["status" := VStr "error"]> (<["message" := VStr "X"]> ∅))) /\
  result (send_command legacy_error "get_actors_in_level" (VDict ∅) initial) =
    Ok (VDict (<["status" := VStr "error"]>
               (<["message" := VStr "X"]> (<["error" := VStr "X"]> ∅)))) /\
  result (send_command legacy_error "get_actors_in_level" (VDict ∅) initial)
  <> Ok (error_result (VStr "X")).
Proof.
  split; [vm_compute; reflexivity |].
  split; [vm_compute; reflexivity |].
  vm_compute. discriminate.
Qed.

Lemma legacy_message_copied_to_error_witness :
  let d : gmap string value :=
    <["status" := VStr "error"]> (<["message" := VStr "X"]> ∅) in
  parsed_response legacy_error "get_actors_in_level" (VDict ∅) initial =
    Some (VDict d) /\
  d !! "status" = Some (VStr "error") /\
  d !! "message" = Some (VStr "X") /\
  d !! "error" = None /\
  result (send_command legacy_error "get_actors_in_level" (VDict ∅) initial) =
    Ok (VDict (<["error" := VStr "X"]> d)).
Proof.
  intros d.
  assert (Hp : parsed_response legacy_error "get_actors_in_level" (VDict ∅)
                 initial = Some (VDict d)) by (vm_compute; reflexivity).
  assert (H1 : d !! "status" = Some (VStr "error")) by reflexivity.
  assert (H2 : d !! "message" = Some (VStr "X")) by reflexivity.
  assert (H3 : d !! "error" = None) by reflexivity.
  refine (conj Hp (conj H1 (conj H2 (conj H3 _)))).
  exact (legacy_message_copied_to_error legacy_error "get_actors_in_level"
           (VDict ∅) initial d (VStr "X") Hp H1 H2 H3).
Defined.

(** C5. A character of the response is split between two reads: the bytes
    of the first read alone do not decode, and [receive_full_response]
    raises the decoding error without reading on, although the bytes of
    both reads together are valid JSON; [send_command] returns a failure
    with the text of that error. *)
Theorem split_character_aborts_receive :
  parse ([x22; xc3] ++ [xa9; x22]) = Ok (VStr (Reference.utf8_encode 233)) /\
  result (receive_full_response split_character 0 4096 initial) =
    Raise (mkExn UnicodeDecodeError
      "'utf-8' codec can't decode byte 0xc3 in position 1: unexpected end of data") /\
  events (receive_full_response split_character 0 4096 initial) =
    [Call 0 (SetTimeout 5); Call 0 (Recv 4096)] /\
  result (send_command split_character "get_actors_in_level" (VDict ∅) initial) =
    Ok (error_result (VStr
      "'utf-8' codec can't decode byte 0xc3 in position 1: unexpected end of data")).
Proof. repeat split; vm_compute; reflexivity. Qed.

Lemma error_shapes_normalize_alike_witness :
  parsed_response status_error "get_actors_in_level" (VDict ∅) initial =
    Some (VDict (<["status" := VStr "error"]> (<["error" := VStr "X"]> ∅))) /\
  parsed_response success_false "find_actors_by_name" VNone initial =
    Some (VDict (<["success" := VBool false]> (<["message" := VStr "X"]> ∅))) /\
  result (send_command status_error "get_actors_in_level" (VDict ∅) initial) =
    Ok (error_result (VStr "X")) /\
  result (send_command success_false "find_actors_by_name" VNone initial) =
    Ok (error_result (VStr "X")).
Proof.
  assert (H1 : parsed_response status_error "get_actors_in_level" (VDict ∅) initial =
               Some (VDict (<["status" := VStr "error"]> (<["error" := VStr "X"]> ∅))))
    by (vm_compute; reflexivity).
  assert (H2 : parsed_response success_false "find_actors_by_name" VNone initial =
               Some (VDict (<["success" := VBool false]> (<["message" := VStr "X"]> ∅))))
    by (vm_compute; reflexivity).
  refine (conj H1 (conj H2 _)).
  exact (error_shapes_normalize_alike status_error success_false
           "get_actors_in_level" "find_actors_by_name" (VDict ∅) VNone
           initial initial "X" H1 H2).
Defined.

Lemma timeout_returns_json_or_raises_witness :
  let complete := [utf8 (json_text "{'success': "); utf8 "true}"] in
  let partial := [utf8 (json_text "{'success': true, ")] in
  (complete <> [] /\ parses (concat complete) = true /\
   on_timeout complete = Ok (Some (utf8 (json_text "{'success': true}")))) /\
  (parses (concat partial) = false /\
   on_timeout partial = Raise timeout_failure) /\
  (method_raises stalled (clock initial) 0 (SetTimeout 5) = None /\
   read_loop (recv_script stalled) [] = (Raise socket_timeout, partial, 2) /\
   is_timeout socket_timeout = true /\
   result (receive_full_response stalled 0 4096%Z initial) = on_timeout partial).
Proof.
  intros complete partial.
  refine (conj _ (conj _ _)).
  - destruct (proj1 (timeout_returns_json_or_raises complete))
      as [(Hne & Hp & Ho) | ([H | H] & _)].
    + exact (conj Hne (conj Hp Ho)).
    + discriminate H.
    + vm_compute in H. discriminate H.
  - destruct (proj1 (timeout_returns_json_or_raises partial))
      as [(_ & Hp & _) | (_ & Ho)].
    + vm_compute in Hp. discriminate Hp.
    + split; [vm_compute; reflexivity | exact Ho].
  - assert (H1 : method_raises stalled (clock initial) 0 (SetTimeout 5) = None)
      by reflexivity.
    assert (H2 : read_loop (recv_script stalled) [] =
                 (Raise socket_timeout, partial, 2)) by (vm_compute; reflexivity).
    assert (H3 : is_timeout socket_timeout = true) by reflexivity.
    refine (conj H1 (conj H2 (conj H3 _))).
    exact (proj1 (proj2 (timeout_returns_json_or_raises partial)
                    stalled 0 4096%Z initial socket_timeout 2 H1 H2 H3)).
Defined.

Lemma non_mapping_response_is_failure_witness :
  parsed_response array_response "get_actors_in_level" (VDict ∅) initial =
    Some (VList [VInt 1; VInt 2]) /\
  (forall d, VList [VInt 1; VInt 2] <> VDict d) /\
  result (send_command array_response "get_actors_in_level" (VDict ∅) initial) =
    Ok (error_result (VStr "'list' object has no attribute 'get'")) /\
  result (send_command array_response "get_actors_in_level" (VDict ∅) initial)
  <> Ok (VList [VInt 1; VInt 2]).
Proof.
  assert (H1 : parsed_response array_response "get_actors_in_level" (VDict ∅) initial =
               Some (VList [VInt 1; VInt 2])) by (vm_compute; reflexivity).
  assert (H2 : forall d, VList [VInt 1; VInt 2] <> VDict d) by discriminate.
  refine (conj H1 (conj H2 _)).
  exact (non_mapping_response_is_failure array_response "get_actors_in_level"
           (VDict ∅) initial (VList [VInt 1; VInt 2]) H1 H2).
Defined.

End Examples.

(** * Further properties of the transport *)

(** ** [connect] and [disconnect] *)

Section Connecting.

Context {codec : Codec}.
Variable env : environment.

Lemma closed_socket (s : state) : socket (self (closed s)) = None.
Proof.
  unfold closed. destruct (socket (self s)) eqn:E; [reflexivity | exact E].
Qed.

Lemma closed_next (s : state) : next_handle (closed s) = next_handle s.
Proof. unfold closed. destruct (socket (self s)); reflexivity. Qed.

(** [connect] closes the socket it finds and goes on as on an object
    without one. *)
Lemma connect_closed (s : state) :
  connect env s =
  (result (connect env (closed s)), after (connect env (closed s)),
   discard_events s ++ events (connect env (closed s))).
Proof.
  destruct s as [[[h |] c] n k]; unfold closed, discard_events; simpl.
  - unfold connect, close_existing, result, after, events. unfold_monad. simpl.
    destruct (method_raises env k h Close); simpl;
      destruct (get_config env) as [config | ?]; simpl; try reflexivity;
      destruct (socket_socket env); simpl; try reflexivity;
      repeat
        match goal with
        | |- context [method_raises env ?k ?h ?c] =>
            destruct (method_raises env k h c); simpl
        end; reflexivity.
  - destruct (connect env _) as [[r s'] t]. reflexivity.
Qed.

Lemma setup_calls_not_close (config : ConnectionConfig) (h : handle) (k : nat) :
  Forall (fun ev => is_close ev = false)
    (map (Call h) (take k (setup_calls config))).
Proof.
  rewrite List.Forall_forall. intros ev (c & <- & Hin)%in_map_iff.
  apply list_elem_of_In, elem_of_take in Hin as (i & Hi & _).
  unfold setup_calls in Hi.
  do 6 (destruct i as [| i]; [injection Hi as <-; reflexivity |]).
  discriminate.
Qed.

Lemma setup_calls_not_send (config : ConnectionConfig) (h : handle) (k : nat) :
  Forall (fun ev => is_send ev = false)
    (map (Call h) (take k (setup_calls config))).
Proof.
  rewrite List.Forall_forall. intros ev (c & <- & Hin)%in_map_iff.
  apply list_elem_of_In, elem_of_take in Hin as (i & Hi & _).
  unfold setup_calls in Hi.
  do 6 (destruct i as [| i]; [injection Hi as <-; reflexivity |]).
  discriminate.
Qed.

(** [connect_spec], with the state that [connect] leaves named. *)
Lemma connect_cases (s : state) :
  socket (self s) = None ->
  exists (b : bool) (s' : state) (t : list event),
    connect env s = (Ok b, s', t) /\
    connected (self s') = b /\
    ((b = false /\ t = [] /\ socket (self s') = None /\
      next_handle s' = next_handle s) \/
     (exists config k,
        get_config env = Ok config /\
        (b = true -> k = 6) /\
        t = NewSocket (next_handle s)
            :: map (Call (next_handle s)) (take k (setup_calls config)) /\
        socket (self s') = Some (next_handle s) /\
        next_handle s' = S (next_handle s))).
Proof.
  intros Hs. destruct (connect_spec env s Hs) as (b & t & E & H).
  exists b, (after (connect env s)), t. split; [exact E | exact H].
Qed.


(** X2. When [connect] returns [True] it has closed the socket it found, if
    any, created one socket, set on it the timeout of the configuration,
    [TCP_NODELAY], [SO_KEEPALIVE] and the two buffer sizes of the
    configuration, and connected it to the configured host and port, in this
    order and with no other operation; the object then holds that socket. *)
Theorem successful_connect_configures_socket (s s' : state) (t : list event) :
  connect env s = (Ok true, s', t) ->
  exists config,
    get_config env = Ok config /\
    t = discard_events s
        ++ NewSocket (next_handle s)
           :: map (Call (next_handle s))
                [SetTimeout (timeout config);
                 SetSockOpt TCP_NODELAY 1;
                 SetSockOpt SO_KEEPALIVE 1;
                 SetSockOpt SO_RCVBUF (buffer_size config);
                 SetSockOpt SO_SNDBUF (buffer_size config);
                 Connect (host config) (port config)] /\
    self s' = mkConnection (Some (next_handle s)) true /\
    next_handle s' = S (next_handle s).
Proof.
  rewrite connect_closed.
  destruct (connect_cases (closed s) (closed_socket s)) as (b & s1 & t0 & E & Hc & H).
  rewrite E. unfold result, after, events. simpl. intros [= -> <- <-].
  destruct H as [([=] & _) | (config & k & Hg & Hk & -> & Hs & Hn)].
  rewrite (Hk eq_refl), closed_next in *.
  exists config. repeat split; try assumption.
  destruct (self s1) as [sock c]. simpl in Hc, Hs. subst. reflexivity.
Qed.

(** X3. [connect] never closes the socket it creates. When it fails after
    having created one, that socket is left open and stays in [self.socket]. *)
Theorem connect_leaves_new_socket_open (s : state) :
  let r := connect env s in
  (result r = Ok false /\ events r = discard_events s /\
   socket (self (after r)) = None) \/
  (exists t,
     events r = discard_events s ++ NewSocket (next_handle s) :: t /\
     Forall (fun ev => is_close ev = false) t /\
     socket (self (after r)) = Some (next_handle s)).
Proof.
  intros r. subst r. rewrite connect_closed.
  destruct (connect_cases (closed s) (closed_socket s)) as (b & s1 & t0 & E & Hc & H).
  rewrite E. unfold result, after, events. simpl.
  destruct H as [(-> & -> & Hs & _) | (config & k & _ & _ & -> & Hs & _)].
  - left. rewrite app_nil_r. auto.
  - right. rewrite closed_next in *. eexists. split; [reflexivity |].
    split; [apply setup_calls_not_close | exact Hs].
Qed.

(** X4. [disconnect] never raises, not even when [close()] does. It closes
    the socket that the object holds, once, and leaves the object without a
    socket and not connected; a second [disconnect] then does nothing. *)
Theorem disconnect_closes_and_clears (s : state) :
  exists s',
    disconnect env s = (Ok tt, s', discard_events s) /\
    self s' = mkConnection None false /\
    next_handle s' = next_handle s /\
    disconnect env s' = (Ok tt, s', []).
Proof.
  destruct s as [[[h |] c] n k]; unfold disconnect, discard_events; unfold_monad; simpl.
  - destruct (method_raises env k h Close); simpl;
      eexists; repeat split.
  - eexists; repeat split.
Qed.

End Connecting.

(** ** What [send_command] sends and returns *)

Section Commands.

Context {codec : Codec}.
Variable env : environment.

Lemma reply_is_dict (r : outcome value) : exists d, reply r = VDict d.
Proof.
  unfold reply, normalize, normalize_dict, error_result.
  destruct r as [[| | | | | | d] | e]; eauto.
  destruct (eq_str _ _); [destruct (d !! "error") |]; eauto.
  destruct (is_False _); eauto.
Qed.

Lemma status_is_error (d : gmap string value) :
  d !! "status" = Some (VStr "error") ->
  eq_str (dict_get d "status" VNone) "error" = true.
Proof. intros H. unfold dict_get. rewrite H. reflexivity. Qed.

Lemma reply_error_entry (r : outcome value) (d : gmap string value) :
  reply r = VDict d ->
  d !! "status" = Some (VStr "error") ->
  exists m, d !! "error" = Some m.
Proof.
  assert (Hcanonical : forall m d,
            error_result m = VDict d -> exists m', d !! "error" = Some m').
  { intros m d' [= <-]. exists m. reflexivity. }
  unfold reply, normalize, normalize_dict.
  destruct r as [[| | | | | | d0] | e]; try (intros H _; exact (Hcanonical _ _ H)).
  destruct (eq_str (dict_get d0 "status" VNone) "error") eqn:Es.
  - destruct (d0 !! "error") as [m |] eqn:Ee; intros [= <-] _.
    + eauto.
    + eexists. apply lookup_insert_eq.
  - destruct (is_False _); [intros H _; exact (Hcanonical _ _ H) |].
    intros [= <-] Hs. rewrite (status_is_error _ Hs) in Es. discriminate.
Qed.

(** X5. [send_command] returns [None] or a [dict], and nothing else: [None]
    when its [connect()] has failed, and a [dict] whenever the connection
    was made, whatever the peer has answered. *)
Theorem send_command_returns_None_or_dict (command : str) (params : value)
    (s : state) :
  let connecting := connect env (after (discard_existing env s)) in
  let r := send_command env command params s in
  (result connecting = Ok false /\ result r = Ok VNone) \/
  (result connecting = Ok true /\ exists d, result r = Ok (VDict d)).
Proof.
  intros connecting r. subst connecting r.
  destruct (send_command_spec env command params s) as (b & t1 & E & Hsend).
  rewrite E. destruct b; rewrite Hsend; unfold result; simpl.
  - right. split; [reflexivity |].
    destruct (reply_is_dict
                (fst (fst (exchange env command params
                             (after (connect env (after (discard_existing env s))))))))
      as (d & ->).
    eauto.
  - left. auto.
Qed.

Lemma send_command_returns_None_or_dict_aux (command : str) (params : value)
    (s : state) :
  exists (v : value) (s' : state) (t : list event),
    send_command env command params s = (Ok v, s', t) /\
    (v = VNone \/ exists d, v = VDict d).
Proof.
  destruct (send_command_spec env command params s) as (b & t1 & E & Hsend).
  destruct b; rewrite Hsend; eexists _, _, _; (split; [reflexivity |]).
  - right. apply reply_is_dict.
  - left. reflexivity.
Qed.

(** X6. A result of [send_command] that is marked as a failure, with
    ["status"] equal to ["error"], always has an entry ["error"]. *)
Theorem failure_marker_has_error_entry (command : str) (params : value)
    (s : state) (d : gmap string value) :
  result (send_command env command params s) = Ok (VDict d) ->
  d !! "status" = Some (VStr "error") ->
  exists m, d !! "error" = Some m.
Proof.
  destruct (send_command_spec env command params s) as (b & t1 & E & Hsend).
  destruct b; rewrite Hsend; unfold result; simpl; [| discriminate].
  intros [= H]. exact (reply_error_entry _ _ H).
Qed.

(** X7. A response of the peer that is a mapping, whose ["status"] is not
    ["error"] and whose ["success"] is not [False], is returned as it was
    received. *)
Theorem ordinary_response_is_returned_unchanged (command : str) (params : value)
    (s : state) (d : gmap string value) :
  parsed_response env command params s = Some (VDict d) ->
  d !! "status" <> Some (VStr "error") ->
  d !! "success" <> Some (VBool false) ->
  result (send_command env command params s) = Ok (VDict d).
Proof.
  intros Hp Hstatus Hsuccess.
  rewrite (send_command_parsed _ _ _ _ _ Hp).
  unfold reply, normalize, normalize_dict, dict_get.
  destruct (d !! "status") as [[| | | | status | |] |]; simpl;
    try (destruct (String.eqb_spec status "error");
         [subst; destruct Hstatus; reflexivity |]);
    destruct (d !! "success") as [[| [|] | | | | |] |]; simpl;
    try reflexivity; destruct Hsuccess; reflexivity.
Qed.

(** X8. Normalizing twice is normalizing once: what lines 260-275 make of a
    response, they leave as it is. *)
Theorem normalize_dict_idempotent (response : gmap string value) :
  exists d, normalize_dict response = VDict d /\ normalize_dict d = VDict d.
Proof.
  unfold normalize_dict at 1.
  destruct (eq_str (dict_get response "status" VNone) "error") eqn:Es.
  - destruct (response !! "error") as [m |] eqn:Ee.
    + exists response. split; [reflexivity |].
      unfold normalize_dict. rewrite Es, Ee. reflexivity.
    + eexists. split; [reflexivity |].
      unfold normalize_dict, dict_get in *.
      rewrite lookup_insert_ne by discriminate.
      rewrite Es. rewrite lookup_insert_eq. reflexivity.
  - destruct (is_False (dict_get response "success" VNone)) eqn:Ef.
    + eexists. split; [reflexivity |]. reflexivity.
    + exists response. split; [reflexivity |].
      unfold normalize_dict. rewrite Es, Ef. reflexivity.
Qed.

Lemma receive_events_not_send (sock : handle) (size : Z) (s : state) :
  Forall (fun ev => is_send ev = false)
    (events (receive_full_response env sock size s)).
Proof.
  unfold receive_full_response, events. unfold_monad.
  assert (Hrecv : forall n,
    Forall (fun ev => is_send ev = false) (replicate n (Call sock (Recv size)))).
  { intros n. apply Forall_replicate. reflexivity. }
  destruct (method_raises env (clock s) sock (SetTimeout 5)); simpl.
  { repeat constructor. }
  destruct (read_loop (recv_script env) []) as [[r chunks] reads].
  specialize (Hrecv reads).
  destruct r as [[data |] | e]; simpl;
    [ | | destruct (is_timeout e); [destruct (on_timeout chunks) |] ];
    simpl; constructor; try reflexivity; rewrite ?app_nil_r; exact Hrecv.
Qed.

Lemma receive_events_not_close (sock : handle) (size : Z) (s : state) :
  Forall (fun ev => is_close ev = false)
    (events (receive_full_response env sock size s)).
Proof.
  unfold receive_full_response, events. unfold_monad.
  assert (Hrecv : forall n,
    Forall (fun ev => is_close ev = false) (replicate n (Call sock (Recv size)))).
  { intros n. apply Forall_replicate. reflexivity. }
  destruct (method_raises env (clock s) sock (SetTimeout 5)); simpl.
  { repeat constructor. }
  destruct (read_loop (recv_script env) []) as [[r chunks] reads].
  specialize (Hrecv reads).
  destruct r as [[data |] | e]; simpl;
    [ | | destruct (is_timeout e); [destruct (on_timeout chunks) |] ];
    simpl; constructor; try reflexivity; rewrite ?app_nil_r; exact Hrecv.
Qed.

(** The command as it goes out (lines 243-251). *)
Lemma exchange_events (command : str) (params : value) (s : state) (h : handle) :
  socket (self s) = Some h ->
  events (exchange env command params s) = [] \/
  exists command_json payload rest,
    json_dumps
      (VDict (<["type" := VStr command]>
              (<["params" := py_or params (VDict ∅)]> ∅))) = Ok command_json /\
    str_encode command_json = Ok payload /\
    events (exchange env command params s) = Call h (SendAll payload) :: rest /\
    Forall (fun ev => is_send ev = false) rest /\
    Forall (fun ev => is_close ev = false) rest.
Proof.
  intros Hsock. unfold exchange, events at 1 2. unfold_monad.
  destruct (json_dumps _) as [command_json | e] eqn:Ej; simpl; [| left; reflexivity].
  rewrite Hsock.
  destruct (str_encode command_json) as [payload | e] eqn:Ee; simpl;
    [| left; reflexivity].
  right. exists command_json, payload.
  pose proof (receive_events_not_send h 4096
                (mkState (self s) (next_handle s) (S (clock s)))) as Hs.
  pose proof (receive_events_not_close h 4096
                (mkState (self s) (next_handle s) (S (clock s)))) as Hc.
  unfold events in Hs, Hc.
  destruct (method_raises env (clock s) h (SendAll payload)); simpl.
  { exists []. split; [reflexivity |]. split; [exact Ee |].
    split; [reflexivity |]. split; constructor. }
  destruct (receive_full_response env h 4096 _) as [[[response_data | e] s'] t];
    simpl in *.
  - destruct (decode_response response_data) as [decoded | e]; simpl;
      exists t; (split; [reflexivity |]); (split; [exact Ee |]);
      rewrite ?app_nil_r; (split; [reflexivity |]); split; assumption.
  - exists t. split; [reflexivity |]. split; [exact Ee |].
    split; [reflexivity |]. split; assumption.
Qed.

(** X9. One call of [send_command] sends at most one message, on the socket
    it has created itself, and that message is the UTF-8 encoding of the
    JSON text of [{"type": command, "params": params or {}}]. *)
Theorem one_message_per_command (command : str) (params : value) (s : state) :
  let r := send_command env command params s in
  (length (List.filter is_send (events r)) <= 1)%nat /\
  forall h data, In (Call h (SendAll data)) (events r) ->
    h = next_handle s /\
    exists command_json,
      json_dumps
        (VDict (<["type" := VStr command]>
                (<["params" := py_or params (VDict ∅)]> ∅))) = Ok command_json /\
      str_encode command_json = Ok data.
Proof.
  intros r. subst r.
  destruct (send_command_spec env command params s) as (b & t1 & E & Hsend).
  set (s0 := after (discard_existing env s)) in *.
  set (s1 := after (connect env s0)) in *.
  destruct (connect_spec env s0 (discard_existing_socket env s))
    as (b' & t1' & E' & _ & H).
  fold s1 in E', H. rewrite E in E'. injection E' as <- <-.
  assert (Hn : next_handle s0 = next_handle s) by apply discard_existing_next.
  rewrite Hn in H.
  assert (Hd : List.filter is_send (discard_events s) = []
               /\ forall h data, ~ In (Call h (SendAll data)) (discard_events s)).
  { unfold discard_events. destruct (socket (self s)); simpl; split; auto.
    intros ? ? [[=] | []]. }
  destruct Hd as [Hd1 Hd2].
  assert (Hfilter : forall t, Forall (fun ev => is_send ev = false) t ->
                      List.filter is_send t = []).
  { induction 1 as [| ev t Hev _ IH]; simpl; [reflexivity |]. rewrite Hev. exact IH. }
  assert (Hno : forall t h data, Forall (fun ev => is_send ev = false) t ->
                  ~ In (Call h (SendAll data)) t).
  { intros t h data Hall Hin. rewrite List.Forall_forall in Hall.
    specialize (Hall _ Hin). discriminate. }
  assert (Ht1 : Forall (fun ev => is_send ev = false) t1).
  { destruct H as [(_ & -> & _) | (config & k & _ & _ & -> & _)]; [constructor |].
    constructor; [reflexivity | apply setup_calls_not_send]. }
  destruct b; rewrite Hsend; unfold events; simpl.
  - destruct H as [([=] & _) | (config & k & _ & _ & _ & Hsock & _)].
    destruct (exchange_events command params s1 _ Hsock)
      as [Ex | (command_json & payload & rest & Hj & He & Ex & Hrest & _)];
      unfold events in Ex; rewrite Ex.
    + split.
      * rewrite !List.filter_app, Hd1, (Hfilter _ Ht1). simpl. lia.
      * intros h data Hin. rewrite !in_app_iff in Hin. simpl in Hin.
        destruct Hin as [Hin | [Hin | [[] | [[=] | []]]]].
        -- destruct (Hd2 _ _ Hin).
        -- destruct (Hno _ _ _ Ht1 Hin).
    + split.
      * rewrite !List.filter_app, Hd1, (Hfilter _ Ht1). simpl.
        rewrite ?List.filter_app, (Hfilter _ Hrest). simpl. lia.
      * intros h data Hin. rewrite !in_app_iff in Hin. simpl in Hin.
        destruct Hin as [Hin | [Hin | [[[= -> ->] | Hin] | [[=] | []]]]].
        -- destruct (Hd2 _ _ Hin).
        -- destruct (Hno _ _ _ Ht1 Hin).
        -- split; [reflexivity | eauto].
        -- destruct (Hno _ _ _ Hrest Hin).
  - split.
    + rewrite List.filter_app, Hd1, (Hfilter _ Ht1). simpl. lia.
    + intros h data Hin. rewrite in_app_iff in Hin.
      destruct Hin as [Hin | Hin];
        [destruct (Hd2 _ _ Hin) | destruct (Hno _ _ _ Ht1 Hin)].
Qed.

(** X10. Whenever [send_command] returns something other than [None],
    that is whenever its [connect()] has succeeded, it has closed the
    socket it created: after creating, configuring and connecting it, and
    whatever happened to the exchange in between, the last thing it does
    is to close that socket, and it does not close it before. *)
Theorem opened_socket_is_closed (command : str) (params : value) (s : state) :
  let r := send_command env command params s in
  result r <> Ok VNone ->
  exists config t,
    get_config env = Ok config /\
    events r =
      discard_events s
      ++ NewSocket (next_handle s)
         :: map (Call (next_handle s)) (setup_calls config)
      ++ t ++ [Call (next_handle s) Close] /\
    Forall (fun ev => is_close ev = false) t.
Proof.
  intros r. subst r.
  destruct (send_command_spec env command params s) as (b & t1 & E & Hsend).
  set (s0 := after (discard_existing env s)) in *.
  set (s1 := after (connect env s0)) in *.
  destruct (connect_spec env s0 (discard_existing_socket env s))
    as (b' & t1' & E' & _ & H).
  fold s1 in E', H. rewrite E in E'. injection E' as <- <-.
  assert (Hn : next_handle s0 = next_handle s) by apply discard_existing_next.
  rewrite Hn in H.
  destruct b; rewrite Hsend; unfold result, events; simpl;
    [| intros Hr; destruct Hr; reflexivity].
  intros _.
  destruct H as [([=] & _) | (config & k & Hg & Hk & -> & Hsock & _)].
  rewrite (Hk eq_refl). exists config.
  exists (snd (exchange env command params s1)).
  split; [exact Hg |]. split.
  - reflexivity.
  - destruct (exchange_events command params s1 _ Hsock)
      as [Ex | (command_json & payload & rest & _ & _ & Ex & _ & Hrest)];
      unfold events in Ex; rewrite Ex; [constructor |].
    constructor; [reflexivity | exact Hrest].
Qed.

Lemma read_loop_reads (script : list (outcome bytes)) (chunks : list bytes) :
  exists k, snd (read_loop script chunks) = S k.
Proof.
  revert chunks. induction script as [| [chunk | e] rest IH]; intros chunks; simpl;
    [eauto | | eauto].
  destruct chunk as [| b chunk]; [destruct chunks; eauto |].
  destruct (bytes_decode _) as [decoded | e]; [| eauto].
  destruct (json_loads decoded); [eauto |].
  destruct (IH (chunks ++ [b :: chunk])) as (k & Hk).
  destruct (read_loop rest _) as [[r c] n]. simpl in *. eauto.
Qed.

Lemma receive_trace (sock : handle) (size : Z) (s : state) :
  events (receive_full_response env sock size s) = [Call sock (SetTimeout 5)] \/
  exists k,
    events (receive_full_response env sock size s) =
      Call sock (SetTimeout 5) :: replicate (S k) (Call sock (Recv size)).
Proof.
  unfold receive_full_response, events. unfold_monad.
  destruct (method_raises env (clock s) sock (SetTimeout 5)); simpl; [left; reflexivity |].
  right. destruct (read_loop_reads (recv_script env) []) as (k & Hk).
  destruct (read_loop (recv_script env) []) as [[r chunks] reads].
  simpl in Hk. subst reads. exists k.
  destruct r as [[data |] | e]; simpl;
    [ | | destruct (is_timeout e); [destruct (on_timeout chunks) |] ];
    simpl; rewrite ?app_nil_r; reflexivity.
Qed.

(** X11. The response is read in the same way whatever the configuration
    says: [send_command] sets the timeout of the socket to five seconds,
    after the command was sent and before the first read, and every read
    asks for at most 4096 bytes. The timeout and the buffer size of the
    configuration bear on the connection and on the sending only. *)
Theorem response_is_read_with_fixed_settings (command : str) (params : value)
    (s : state) :
  let r := send_command env command params s in
  Forall (fun ev => is_recv ev = false) (events r) \/
  exists before payload k,
    events r =
      before
      ++ Call (next_handle s) (SendAll payload)
         :: Call (next_handle s) (SetTimeout 5)
         :: replicate (S k) (Call (next_handle s) (Recv 4096))
      ++ [Call (next_handle s) Close] /\
    Forall (fun ev => is_recv ev = false) before.
Proof.
  intros r. subst r.
  destruct (send_command_spec env command params s) as (b & t1 & E & Hsend).
  set (s0 := after (discard_existing env s)) in *.
  set (s1 := after (connect env s0)) in *.
  destruct (connect_spec env s0 (discard_existing_socket env s))
    as (b' & t1' & E' & _ & H).
  fold s1 in E', H. rewrite E in E'. injection E' as <- <-.
  assert (Hn : next_handle s0 = next_handle s) by apply discard_existing_next.
  rewrite Hn in H.
  assert (Hd : Forall (fun ev => is_recv ev = false) (discard_events s)).
  { unfold discard_events. destruct (socket (self s)); repeat constructor. }
  assert (Ht1 : Forall (fun ev => is_recv ev = false) t1).
  { destruct H as [(_ & -> & _) | (config & k & _ & _ & -> & _)]; [constructor |].
    constructor; [reflexivity |].
    rewrite List.Forall_forall. intros ev (c & <- & Hin)%in_map_iff.
    apply list_elem_of_In, elem_of_take in Hin as (i & Hi & _).
    unfold setup_calls in Hi.
    do 6 (destruct i as [| i]; [injection Hi as <-; reflexivity |]).
    discriminate. }
  destruct b; rewrite Hsend; unfold events; simpl;
    [| left; apply Forall_app; split; assumption].
  destruct H as [([=] & _) | (config & k & _ & _ & _ & Hsock & _)].
  unfold exchange. unfold_monad.
  destruct (json_dumps _) as [command_json | e]; simpl.
  2: { left. apply Forall_app. split; [assumption |].
       apply Forall_app. split; [assumption | repeat constructor]. }
  rewrite Hsock.
  destruct (str_encode command_json) as [payload | e]; simpl.
  2: { left. apply Forall_app. split; [assumption |].
       apply Forall_app. split; [assumption | repeat constructor]. }
  destruct (method_raises env (clock s1) (next_handle s) (SendAll payload)); simpl.
  { left. apply Forall_app. split; [assumption |].
    apply Forall_app. split; [assumption | repeat constructor]. }
  pose proof (receive_trace (next_handle s) 4096
                (mkState (self s1) (next_handle s1) (S (clock s1)))) as Hr.
  unfold events in Hr.
  destruct (receive_full_response env (next_handle s) 4096 _)
    as [[response_data s'] t].
  simpl in Hr.
  destruct Hr as [-> | (k' & ->)].
  - left. apply Forall_app. split; [assumption |].
    apply Forall_app. split; [assumption |].
    destruct response_data as [response_data | e]; simpl;
      [destruct (decode_response response_data); simpl |]; repeat constructor.
  - right. exists (discard_events s ++ t1), payload, k'. split.
    + rewrite <- !app_assoc. do 2 f_equal.
      destruct response_data as [response_data | e]; simpl;
        [destruct (decode_response response_data); simpl |];
        rewrite ?app_nil_r; reflexivity.
    + apply Forall_app. split; assumption.
Qed.

End Commands.

(** ** What [receive_full_response] returns *)

Section Reading.

Context {codec : Codec}.

Lemma read_loop_returns_prefix (script : list (outcome bytes))
    (acc chunks' : list bytes) (data : bytes) (reads : nat) :
  read_loop script acc = (Ok (Some data), chunks', reads) ->
  exists new rest,
    script = map Ok new ++ rest /\
    new <> [] /\
    Forall (fun chunk => chunk <> []) new /\
    data = concat (acc ++ new) /\
    reads = length new /\
    forall k, (0 < k < length new)%nat ->
      parses (concat (acc ++ take k new)) = false.
Proof.
  revert acc chunks' reads.
  induction script as [| [chunk | e] rest IH]; intros acc chunks' reads;
    simpl; [discriminate | | discriminate].
  destruct chunk as [| b chunk].
  { destruct acc; discriminate. }
  destruct (bytes_decode (concat (acc ++ [b :: chunk]))) as [decoded | e] eqn:Ed;
    [| discriminate].
  destruct (json_loads decoded) as [v | e] eqn:El.
  - intros [= <- _ <-]. exists [b :: chunk], rest.
    repeat split; try discriminate.
    + repeat constructor. discriminate.
    + simpl. intros k Hk. lia.
  - destruct (read_loop rest (acc ++ [b :: chunk])) as [[r c] n] eqn:Er.
    intros [= -> -> <-].
    destruct (IH _ _ _ Er) as (new & rest' & -> & Hne & Hall & -> & -> & Hmin).
    exists ((b :: chunk) :: new), rest'.
    repeat split; try discriminate.
    + constructor; [discriminate | exact Hall].
    + rewrite <- app_assoc. reflexivity.
    + intros k Hk. destruct k as [| k]; [lia |]. simpl in Hk. simpl.
      destruct k as [| k].
      * rewrite take_0. unfold parses, parse. rewrite Ed, El. reflexivity.
      * specialize (Hmin (S k) ltac:(lia)).
        rewrite <- app_assoc in Hmin. exact Hmin.
Qed.

(** X12. The buffer that [receive_full_response] returns is made of the
    reads it has performed, in order and in full: nothing is added and
    nothing is dropped. It stops at the first read after which the bytes
    received so far form a JSON document, and reads nothing that arrives
    later. *)
Theorem received_bytes_are_first_complete_document (env : environment)
    (sock : handle) (size : Z) (s : state) (data : bytes) :
  let r := receive_full_response env sock size s in
  result r = Ok (Some data) ->
  exists chunks rest,
    recv_script env = map Ok chunks ++ rest /\
    chunks <> [] /\
    Forall (fun chunk => chunk <> []) chunks /\
    data = concat chunks /\
    parses data = true /\
    (forall k, (0 < k < length chunks)%nat ->
       parses (concat (take k chunks)) = false) /\
    events r =
      Call sock (SetTimeout 5)
      :: replicate (length chunks) (Call sock (Recv size)).
Proof.
  intros r Hr.
  pose proof (receive_returns_json env sock size s data Hr) as Hjson.
  subst r. revert Hr. unfold receive_full_response, result, events.
  cbv beta iota zeta delta [bind call ret raise lift].
  destruct (method_raises env (clock s) sock (SetTimeout 5)); [discriminate |].
  destruct (read_loop (recv_script env) []) as [[r chunks] reads] eqn:Er.
  destruct r as [[data' |] | e]; simpl.
  - intros [= ->].
    destruct (read_loop_returns_prefix _ _ _ _ _ Er)
      as (new & rest & Hs & Hne & Hall & Hd & -> & Hmin).
    simpl in Hd, Hmin. exists new, rest. rewrite app_nil_r.
    repeat split; assumption.
  - discriminate.
  - destruct (is_timeout e); simpl; [| discriminate].
    pose proof (read_loop_raise_unparsed _ _ _ _ _ (or_introl eq_refl) Er) as Hinv.
    unfold on_timeout. destruct chunks as [| c chunks]; [discriminate |].
    destruct Hinv as [[=] | Hinv]. unfold parses in Hinv.
    destruct (parse (concat (c :: chunks))); discriminate.
Qed.

End Reading.

(** ** The shared connection *)

Ltac unfold_global :=
  cbv beta iota zeta delta
    [Global.bind Global.try_except Global.finally Global.ret Global.raise
     Global.lift get_global set_global method].

Section Sharing.

Context {codec : Codec}.
Variable env : environment.

(** Lines 310-313: a new object is made and connected; the global keeps
    it when [connect()] has returned [True]. *)
Lemma connect_new_spec (p : process) :
  exists (b : bool) (s' : state) (t : list event),
    connect env (mkState init (sockets_created p) (calls_made p)) = (Ok b, s', t) /\
    connect_new env p =
      (Ok tt,
       mkProcess (if b then Some (self s') else None) (next_handle s') (clock s'),
       t) /\
    Forall (fun ev => is_send ev = false) t /\
    (b = true ->
     self s' = mkConnection (Some (sockets_created p)) true /\
     In (NewSocket (sockets_created p)) t).
Proof.
  destruct (connect_cases env (mkState init (sockets_created p) (calls_made p)) eq_refl)
    as (b & s' & t & E & Hc & H).
  exists b, s', t. split; [exact E |]. split; [| split].
  - unfold connect_new. unfold_global. simpl. rewrite E.
    destruct b; simpl; rewrite ?app_nil_r; reflexivity.
  - destruct H as [(_ & -> & _) | (config & k & _ & _ & -> & _)]; [constructor |].
    constructor; [reflexivity | apply setup_calls_not_send].
  - intros ->. destruct H as [([=] & _) | (config & k & _ & _ & -> & Hs & _)].
    simpl in *. split; [| left; reflexivity].
    destruct (self s') as [sock c]. simpl in *. subst. reflexivity.
Qed.

Lemma get_unreal_connection_None (p p' : process) (t : list event) :
  _unreal_connection p = None ->
  connect_new env p = (Ok tt, p', t) ->
  get_unreal_connection env p = (Ok (_unreal_connection p'), p', t).
Proof.
  intros Hg E. unfold get_unreal_connection. unfold_global.
  rewrite Hg, E. simpl. rewrite app_nil_r. reflexivity.
Qed.

(** A connection object without a socket cannot be pinged: the attribute
    lookup fails before anything is sent, and the object is replaced. *)
Lemma get_unreal_connection_no_socket (p : process) (c : UnrealConnection) :
  _unreal_connection p = Some c ->
  socket c = None ->
  get_unreal_connection env p =
  get_unreal_connection env (mkProcess None (sockets_created p) (calls_made p)).
Proof.
  destruct p as [g n k], c as [sock conn]. simpl. intros -> ->.
  unfold get_unreal_connection, ping, disconnect. unfold_global. unfold_monad.
  simpl. destruct (connect_new env _) as [[[[] | e] p'] t]; reflexivity.
Qed.

Lemma get_unreal_connection_ping (p : process) (c : UnrealConnection) (h : handle) :
  _unreal_connection p = Some c ->
  socket c = Some h ->
  method_raises env (calls_made p) h (SendAll [x00]) = None ->
  get_unreal_connection env p =
  (Ok (Some c), mkProcess (Some c) (sockets_created p) (S (calls_made p)),
   [Call h (SendAll [x00])]).
Proof.
  destruct p as [g n k], c as [sock conn]. simpl. intros -> -> Hp.
  unfold get_unreal_connection, ping. unfold_global. unfold_monad.
  simpl. rewrite Hp. reflexivity.
Qed.

Lemma get_unreal_connection_reconnect (p p' : process) (c : UnrealConnection)
    (h : handle) (e : exn) (t : list event) :
  _unreal_connection p = Some c ->
  socket c = Some h ->
  method_raises env (calls_made p) h (SendAll [x00]) = Some e ->
  connect_new env (mkProcess None (sockets_created p) (S (S (calls_made p))))
    = (Ok tt, p', t) ->
  get_unreal_connection env p =
  (Ok (_unreal_connection p'), p',
   Call h (SendAll [x00]) :: Call h Close :: t).
Proof.
  destruct p as [g n k], c as [sock conn]. simpl. intros -> -> Hp E.
  unfold get_unreal_connection, ping, disconnect. unfold_global. unfold_monad.
  simpl. rewrite Hp. simpl.
  destruct (method_raises env (S k) h Close); simpl; rewrite E; simpl;
    rewrite app_nil_r; reflexivity.
Qed.

(** All the ways in which [get_unreal_connection] ends. *)
Lemma get_unreal_connection_cases (p : process) :
  exists (r : option UnrealConnection) (p' : process) (t : list event),
    get_unreal_connection env p = (Ok r, p', t) /\
    _unreal_connection p' = r /\
    (r = None \/
     (exists h,
        r = Some (mkConnection (Some h) true) /\ In (NewSocket h) t /\
        sockets_created p' = S h) \/
     (exists c h,
        r = Some c /\ _unreal_connection p = Some c /\ socket c = Some h /\
        t = [Call h (SendAll [x00])] /\ sockets_created p' = sockets_created p)).
Proof.
  assert (Hnew : forall q q' t,
            connect_new env q = (Ok tt, q', t) ->
            _unreal_connection q' = None \/
            exists h, _unreal_connection q' = Some (mkConnection (Some h) true) /\
                      In (NewSocket h) t /\ sockets_created q' = S h).
  { intros q q' t E.
    destruct (connect_new_spec q) as (b & s' & t' & Ec & E' & _ & Hb).
    rewrite E in E'. injection E' as -> ->.
    destruct b; [| left; reflexivity].
    destruct (Hb eq_refl) as [Hs Hin]. right. exists (sockets_created q).
    simpl. rewrite Hs. repeat split; [exact Hin |].
    destruct (connect_cases env _ (eq_refl : socket (self (mkState init
               (sockets_created q) (calls_made q))) = None))
      as (b' & s'' & t'' & E'' & _ & H).
    rewrite Ec in E''. injection E'' as <- <- <-.
    destruct H as [([=] & _) | (config & k & _ & _ & _ & _ & Hn)]. exact Hn. }
  destruct (_unreal_connection p) as [c |] eqn:Hg.
  - destruct (socket c) as [h |] eqn:Hs.
    + destruct (method_raises env (calls_made p) h (SendAll [x00])) as [e |] eqn:Hp.
      * destruct (connect_new_spec
                    (mkProcess None (sockets_created p) (S (S (calls_made p)))))
          as (b & s' & t & _ & E & _).
        rewrite (get_unreal_connection_reconnect _ _ _ _ _ _ Hg Hs Hp E).
        eexists _, _, _. split; [reflexivity |]. split; [reflexivity |].
        destruct (Hnew _ _ _ E) as [-> | (h' & -> & Hin & Hn)]; [left; reflexivity |].
        right. left. exists h'. repeat split; [| exact Hn].
        right. right. exact Hin.
      * rewrite (get_unreal_connection_ping _ _ _ Hg Hs Hp).
        eexists _, _, _. split; [reflexivity |]. split; [reflexivity |].
        right. right. exists c, h. repeat split. exact Hs.
    + rewrite (get_unreal_connection_no_socket _ _ Hg Hs).
      destruct (connect_new_spec (mkProcess None (sockets_created p) (calls_made p)))
        as (b & s' & t & _ & E & _).
      rewrite (get_unreal_connection_None (mkProcess None _ _) _ _ eq_refl E).
      eexists _, _, _. split; [reflexivity |]. split; [reflexivity |].
      destruct (Hnew _ _ _ E) as [-> | (h' & -> & Hin & Hn)]; [left; reflexivity |].
      right. left. exists h'. repeat split; assumption.
  - destruct (connect_new_spec p) as (b & s' & t & _ & E & _).
    rewrite (get_unreal_connection_None _ _ _ Hg E).
    eexists _, _, _. split; [reflexivity |]. split; [reflexivity |].
    destruct (Hnew _ _ _ E) as [-> | (h' & -> & Hin & Hn)]; [left; reflexivity |].
    right. left. exists h'. repeat split; assumption.
Qed.

Lemma get_unreal_connection_total (p : process) :
  exists (r : option UnrealConnection) (p' : process) (t : list event),
    get_unreal_connection env p = (Ok r, p', t) /\
    _unreal_connection p' = r.
Proof.
  destruct (get_unreal_connection_cases p) as (r & p' & t & E & Hg & _).
  eauto.
Qed.

(** X13. [get_unreal_connection] never raises, and what it returns is what
    the global [_unreal_connection] holds afterwards: the connection object
    that a tool receives is the one the module keeps. *)
Theorem get_unreal_connection_returns_global (p : process) :
  exists (r : option UnrealConnection) (p' : process) (t : list event),
    get_unreal_connection env p = (Ok r, p', t) /\
    _unreal_connection p' = r.
Proof.
  destruct (get_unreal_connection_cases p) as (r & p' & t & E & Hg & _).
  exists r, p', t. split; [exact E | exact Hg].
Qed.

(** X14. A connection that [get_unreal_connection] returns always holds a
    socket. It is either a new object whose [connect()] has just succeeded,
    or the object that was there before, on whose socket the one-byte ping
    went through; in that case the ping is all that was done. *)
Theorem returned_connection_holds_socket (p : process) (c : UnrealConnection) :
  let r := get_unreal_connection env p in
  Global.result r = Ok (Some c) ->
  exists h,
    socket c = Some h /\
    ((connected c = true /\ In (NewSocket h) (Global.events r)) \/
     (_unreal_connection p = Some c /\
      Global.events r = [Call h (SendAll [x00])])).
Proof.
  intros r. subst r.
  destruct (get_unreal_connection_cases p) as (r & p' & t & E & _ & H).
  rewrite E. unfold Global.result, Global.events. simpl. intros [= ->].
  destruct H as [[=] | [(h & [= ->] & Hin & _)
                       | (c' & h & [= <-] & Hg & Hs & -> & _)]].
  - exists h. split; [reflexivity |]. left. auto.
  - exists h. split; [exact Hs |]. right. auto.
Qed.

(** X15. After a command whose connection was made, the shared connection is
    of no further use: the next [get_unreal_connection] finds an object
    without a socket, sends no ping, and goes on exactly as if the module
    had no connection at all, by making a new one. *)
Theorem connection_is_replaced_after_command (env' : environment)
    (command : str) (params : value) (p : process) (c : UnrealConnection) :
  _unreal_connection p = Some c ->
  let sent := method "send_command" (send_command env' command params) p in
  Global.result sent <> Ok VNone ->
  let p' := Global.after sent in
  get_unreal_connection env p' =
    get_unreal_connection env (mkProcess None (sockets_created p') (calls_made p')) /\
  Forall (fun ev => is_send ev = false)
    (Global.events (get_unreal_connection env p')).
Proof.
  intros Hg sent Hr p'. subst sent p'.
  revert Hr. unfold method, Global.result, Global.after. rewrite Hg.
  set (s := mkState c (sockets_created p) (calls_made p)).
  destruct (send_command_footprint env' command params s) as (_ & _ & _ & Hs).
  destruct (send_command env' command params s) as [[r s'] t] eqn:E.
  unfold after, result in Hs. simpl in Hs. simpl. intros Hr.
  destruct Hs as [Hs | [_ Hs]]; [| destruct (Hr Hs)].
  assert (Heq : get_unreal_connection env
                  (mkProcess (Some (self s')) (next_handle s') (clock s')) =
                get_unreal_connection env
                  (mkProcess None (next_handle s') (clock s'))).
  { exact (get_unreal_connection_no_socket (mkProcess (Some (self s')) _ _) _ eq_refl Hs). }
  split; [exact Heq |]. rewrite Heq.
  destruct (connect_new_spec (mkProcess None (next_handle s') (clock s')))
    as (b & s'' & t' & _ & E' & Ht & _).
  rewrite (get_unreal_connection_None (mkProcess None _ _) _ _ eq_refl E'). exact Ht.
Qed.

(** X16. A tool calls [get_unreal_connection] and then [send_command] on
    what it got. The first thing [send_command] does is to close the socket
    that [get_unreal_connection] has just opened or checked; all the rest it
    does on a socket that it creates itself. *)
Theorem command_discards_shared_socket (env' : environment)
    (command : str) (params : value) (p : process) (c : UnrealConnection)
    (h : handle) :
  let got := get_unreal_connection env p in
  Global.result got = Ok (Some c) ->
  socket c = Some h ->
  let own := sockets_created (Global.after got) in
  exists rest,
    Global.events
      (method "send_command" (send_command env' command params)
         (Global.after got))
    = Call h Close :: rest /\
    Forall (fun ev => ev = NewSocket own \/ on_handle own ev) rest.
Proof.
  intros got Hr Hs own. subst got own.
  destruct (get_unreal_connection_total p) as (r & p' & t & E & Hg).
  rewrite E in *. unfold Global.result, Global.after in *. simpl in *.
  injection Hr as ->.
  unfold method, Global.events. rewrite Hg.
  set (s := mkState c (sockets_created p') (calls_made p')).
  destruct (send_command_spec env' command params s) as (b & t1 & Ec & Hsend).
  set (s0 := after (discard_existing env' s)) in *.
  set (s1 := after (connect env' s0)) in *.
  destruct (connect_cases env' s0 (discard_existing_socket env' s))
    as (b' & s1' & t1' & E' & _ & H).
  rewrite Ec in E'. injection E' as <- <- <-.
  assert (Hn : next_handle s0 = sockets_created p') by apply discard_existing_next.
  rewrite Hn in H.
  assert (Hd : discard_events s = [Call h Close]).
  { unfold discard_events. simpl. rewrite Hs. reflexivity. }
  assert (Hcalls : forall cs, Forall
            (fun ev => ev = NewSocket (sockets_created p')
                       \/ on_handle (sockets_created p') ev)
            (map (Call (sockets_created p')) cs)).
  { intros cs. rewrite List.Forall_forall. intros ev (k & <- & _)%in_map_iff.
    right. eexists. reflexivity. }
  destruct b; rewrite Hsend, Hd; simpl.
  - destruct H as [([=] & _) | (config & k & _ & _ & -> & Hsock & _)].
    destruct (exchange_spec env' command params s1 _ Hsock)
      as (rx & sx & tx & Ex & _ & _ & Hx).
    eexists. split; [reflexivity |].
    constructor; [left; reflexivity |].
    apply Forall_app. split; [apply Hcalls |].
    apply Forall_app. split.
    + unfold events. rewrite Ex. simpl.
      eapply Forall_impl; [exact Hx | intros ev Hev; right; exact Hev].
    + constructor; [right; eexists; reflexivity | constructor].
  - destruct H as [(_ & -> & _) | (config & k & _ & _ & -> & _)].
    + exists []. split; [reflexivity | constructor].
    + eexists. split; [reflexivity |].
      constructor; [left; reflexivity | apply Hcalls].
Qed.

Lemma startup_spec (p : process) :
  exists p' t, startup env p = (Ok tt, p', t).
Proof.
  destruct (get_unreal_connection_total p) as (r & p' & t & E & _).
  unfold startup. unfold_global. rewrite E. simpl. eauto.
Qed.

Lemma shutdown_spec (p : process) :
  exists p',
    shutdown env p = (Ok tt, p', closing (_unreal_connection p)) /\
    _unreal_connection p' = None.
Proof.
  destruct p as [[[[h |] c] |] n k]; unfold shutdown, disconnect, closing;
    unfold_global; unfold_monad; simpl.
  - destruct (method_raises env k h Close); simpl; eexists; split; reflexivity.
  - eexists; split; reflexivity.
  - eexists; split; reflexivity.
Qed.

(** X17. When the server stops, [server_lifespan] closes the socket of the
    connection that the module holds at that time and clears the global,
    whether the server ran to its end or was stopped by an exception; the
    exception, if any, goes on to the caller. Apart from that it does what
    the start and the running server did. *)
Theorem lifespan_clears_connection {A} (running : G A) (p : process) :
  exists (p0 : process) (t0 : list event),
    startup env p = (Ok tt, p0, t0) /\
    exists (p' : process),
      server_lifespan env running p =
        (Global.result (running p0), p',
         t0 ++ Global.events (running p0)
         ++ closing (_unreal_connection (Global.after (running p0)))) /\
      _unreal_connection p' = None.
Proof.
  destruct (startup_spec p) as (p0 & t0 & E0).
  exists p0, t0. split; [exact E0 |].
  unfold server_lifespan. unfold_global. rewrite E0.
  destruct (running p0) as [[r p1] t1].
  unfold Global.result, Global.after, Global.events. simpl.
  destruct (shutdown_spec p1) as (p' & E' & Hg). rewrite E'.
  exists p'. split; [reflexivity | exact Hg].
Qed.

End Sharing.

(** ** The tools of the editor *)

Section Stripping.

Import Builtins.

Lemma after_prefix_app (w s r : list ascii) :
  after_prefix w s = Some r -> s = w ++ r.
Proof.
  revert s. induction w as [| a w IH]; intros [| b s]; simpl; try discriminate.
  - intros [= <-]. reflexivity.
  - intros [= <-]. reflexivity.
  - destruct (Ascii.eqb_spec a b) as [-> |]; [| discriminate].
    intros H. rewrite (IH _ H). reflexivity.
Qed.

Lemma after_prefix_longer (w s r x : list ascii) :
  after_prefix w s = Some r -> after_prefix w (s ++ x) = Some (r ++ x).
Proof.
  revert s. induction w as [| a w IH]; intros [| b s]; simpl; try discriminate.
  - intros [= <-]. reflexivity.
  - intros [= <-]. reflexivity.
  - destruct (Ascii.eqb a b); [apply IH | discriminate].
Qed.

Lemma after_any_app (ws : list (list ascii)) (s r : list ascii) :
  after_any ws s = Some r -> exists w, In w ws /\ s = w ++ r.
Proof.
  induction ws as [| w ws IH]; simpl; [discriminate |].
  destruct (after_prefix w s) as [r' |] eqn:E.
  - intros [= <-]. exists w. split; [left; reflexivity | exact (after_prefix_app _ _ _ E)].
  - intros H. destruct (IH H) as (w' & Hin & Hs). exists w'. auto.
Qed.

Lemma after_any_shorter (ws : list (list ascii)) (s x : list ascii) :
  after_any ws (s ++ x) = None -> after_any ws s = None.
Proof.
  induction ws as [| w ws IH]; simpl; [reflexivity |].
  destruct (after_prefix w s) as [r |] eqn:E.
  - rewrite (after_prefix_longer _ _ _ x E). discriminate.
  - destruct (after_prefix w (s ++ x)); [discriminate | exact IH].
Qed.

Lemma strip_left_suffix (ws : list (list ascii)) (fuel : nat) (s : list ascii) :
  exists pre, s = pre ++ strip_left ws fuel s.
Proof.
  revert s. induction fuel as [| fuel IH]; intros s; simpl.
  - exists []. reflexivity.
  - destruct (after_any ws s) as [r |] eqn:E; [| exists []; reflexivity].
    destruct (after_any_app _ _ _ E) as (w & _ & ->).
    destruct (IH r) as (pre & Hr). exists (w ++ pre).
    rewrite <- app_assoc, <- Hr. reflexivity.
Qed.

Lemma strip_left_done (ws : list (list ascii)) (fuel : nat) (s : list ascii) :
  Forall (fun w => w <> []) ws ->
  (length s <= fuel)%nat ->
  after_any ws (strip_left ws fuel s) = None.
Proof.
  intros Hws. revert s. induction fuel as [| fuel IH]; intros s Hlen; simpl.
  - destruct s; [| simpl in Hlen; lia].
    clear Hlen. induction Hws as [| w ws Hw _ IHws]; simpl; [reflexivity |].
    destruct w; [destruct Hw; reflexivity | exact IHws].
  - destruct (after_any ws s) as [r |] eqn:E; [| exact E].
    apply IH. destruct (after_any_app _ _ _ E) as (w & Hin & ->).
    rewrite List.Forall_forall in Hws. specialize (Hws _ Hin).
    rewrite length_app in Hlen. destruct w; [destruct Hws; reflexivity |].
    simpl in Hlen. lia.
Qed.

Lemma strip_left_fixed (ws : list (list ascii)) (fuel : nat) (s : list ascii) :
  after_any ws s = None -> strip_left ws fuel s = s.
Proof. intros H. destruct fuel; simpl; [| rewrite H]; reflexivity. Qed.

Lemma whitespace_not_empty : Forall (fun w => w <> []) whitespace.
Proof. vm_compute. repeat constructor; discriminate. Qed.

Lemma reversed_whitespace_not_empty :
  Forall (fun w => w <> []) (map (@rev ascii) whitespace).
Proof. vm_compute. repeat constructor; discriminate. Qed.

(** What [strip] returns has no whitespace left at either end. *)
Lemma strip_chars_fixed (l : list ascii) :
  rstrip (lstrip (rstrip (lstrip l))) = rstrip (lstrip l).
Proof.
  set (u := lstrip l).
  assert (Hu : after_any whitespace u = None).
  { apply strip_left_done; [exact whitespace_not_empty | reflexivity]. }
  unfold rstrip at 2.
  set (R := strip_left (map (@rev ascii) whitespace) (length u) (rev u)).
  assert (HR : after_any (map (@rev ascii) whitespace) R = None).
  { apply strip_left_done; [exact reversed_whitespace_not_empty |].
    rewrite length_rev. reflexivity. }
  destruct (strip_left_suffix (map (@rev ascii) whitespace) (length u) (rev u))
    as (pre & Hpre).
  fold R in Hpre.
  assert (Hv : u = rev R ++ rev pre).
  { rewrite <- rev_app_distr, <- Hpre, rev_involutive. reflexivity. }
  assert (Hl : lstrip (rev R) = rev R).
  { apply strip_left_fixed. rewrite Hv in Hu. exact (after_any_shorter _ _ _ Hu). }
  rewrite Hl. unfold rstrip. rewrite rev_involutive.
  rewrite (strip_left_fixed _ _ _ HR). reflexivity.
Qed.

Lemma strip_fixed (s : str) : strip (strip s) = strip s.
Proof.
  unfold strip. rewrite list_ascii_of_string_of_list_ascii.
  rewrite strip_chars_fixed. reflexivity.
Qed.

End Stripping.

Section Names.

Lemma validate_actor_name_Ok (name : value) (n : str) :
  validate_actor_name name = Ok n ->
  exists s,
    name = VStr s /\ s <> "" /\ n = Builtins.strip s /\ n <> "" /\
    List.find (fun char => Builtins.contains char n) invalid_chars = None.
Proof.
  unfold validate_actor_name. destruct name as [| | | | s | |]; try discriminate.
  destruct (String.eqb_spec s ""); [discriminate |].
  destruct (String.eqb_spec (Builtins.strip s) ""); [discriminate |].
  destruct (List.find _ invalid_chars) eqn:Ef; [discriminate |].
  intros [= <-]. exists s. auto.
Qed.

Lemma validate_actor_name_raises (name : value) (e : exn) :
  validate_actor_name name = Raise e -> exc_type e = ValueError.
Proof.
  unfold validate_actor_name. destruct name as [| | | | s | |];
    try (intros [= <-]; reflexivity).
  destruct (String.eqb s ""); [intros [= <-]; reflexivity |].
  destruct (String.eqb (Builtins.strip s) ""); [intros [= <-]; reflexivity |].
  destruct (List.find _ invalid_chars); [| discriminate].
  intros [= <-]. reflexivity.
Qed.

(** X18. A name that [validate_actor_name] accepts is a string; what is
    returned is that string without the whitespace at its two ends, it is
    not empty, and none of the nine characters of [invalid_chars] occurs in
    it. *)
Theorem validated_name_is_clean (name : value) (n : str) :
  validate_actor_name name = Ok n ->
  (exists s, name = VStr s /\ n = Builtins.strip s) /\
  n <> "" /\
  Forall (fun char => Builtins.contains char n = false) invalid_chars.
Proof.
  intros H. destruct (validate_actor_name_Ok _ _ H) as (s & -> & _ & -> & Hn & Hf).
  split; [eauto |]. split; [exact Hn |].
  rewrite List.Forall_forall. intros char Hin.
  exact (List.find_none _ _ Hf _ Hin).
Qed.

(** X19. Validation is idempotent: a name that [validate_actor_name] has
    returned is accepted again, and returned as it is. *)
Theorem validate_actor_name_idempotent (name : value) (n : str) :
  validate_actor_name name = Ok n ->
  validate_actor_name (VStr n) = Ok n.
Proof.
  intros H. destruct (validate_actor_name_Ok _ _ H) as (s & -> & _ & -> & Hn & Hf).
  unfold validate_actor_name. rewrite strip_fixed.
  destruct (String.eqb_spec (Builtins.strip s) ""); [contradiction |].
  rewrite Hf. reflexivity.
Qed.

End Names.

Section VectorParams.

Variable float_of : value -> outcome float.

Lemma floats_Ok (l : list value) (fs : list float) :
  floats float_of l = Ok fs ->
  Forall2 (fun val f => float_of val = Ok f) l fs.
Proof.
  revert fs. induction l as [| val l IH]; intros fs; simpl.
  - intros [= <-]. constructor.
  - destruct (float_of val) as [f | e] eqn:Ef; [| discriminate].
    destruct (floats float_of l) as [fs' | e]; [| discriminate].
    intros [= <-]. constructor; [exact Ef | apply IH; reflexivity].
Qed.

Lemma floats_Raise (l : list value) (e : exn) :
  floats float_of l = Raise e -> exists val, In val l /\ float_of val = Raise e.
Proof.
  induction l as [| val l IH]; simpl; [discriminate |].
  destruct (float_of val) as [f | e'] eqn:Ef.
  - destruct (floats float_of l) as [fs' | e']; [discriminate |].
    intros [= <-]. destruct (IH eq_refl) as (val' & Hin & Hv). eauto.
  - intros [= <-]. eauto.
Qed.

(** X20. What [validate_vector_param] returns is the list of the floats of
    the elements of the parameter, in order; the parameter is a list, and it
    has exactly the required number of elements. *)
Theorem validated_vector_has_required_length (param_name : str)
    (param_value : value) (required_length : Z) (fs : list float) :
  validate_vector_param float_of param_name param_value required_length = Ok fs ->
  exists l,
    param_value = VList l /\
    Z.of_nat (length l) = required_length /\
    Forall2 (fun val f => float_of val = Ok f) l fs.
Proof.
  unfold validate_vector_param.
  destruct param_value as [| | | | | l |]; try discriminate.
  destruct (Z.eqb_spec (Z.of_nat (length l)) required_length) as [Hlen |];
    simpl; [| discriminate].
  destruct (floats float_of l) as [fs' | e] eqn:Ef.
  - intros [= <-]. exists l. repeat split; [exact Hlen | exact (floats_Ok _ _ Ef)].
  - destruct (_ || _); discriminate.
Qed.

(** X21. Whatever is wrong with a vector, [validate_vector_param] reports it
    as a [ValueError]: a parameter that is not a list, a list of another
    length, an element that [float()] rejects with a [ValueError] or a
    [TypeError]. The only other exceptions are those of another class that
    [float()] itself has raised on an element. *)
Theorem invalid_vector_raises_ValueError (param_name : str)
    (param_value : value) (required_length : Z) (e : exn) :
  validate_vector_param float_of param_name param_value required_length = Raise e ->
  exc_type e = ValueError \/
  exists l val,
    param_value = VList l /\ In val l /\ float_of val = Raise e /\
    Builtins.is_ValueError e = false /\ Builtins.is_TypeError e = false.
Proof.
  unfold validate_vector_param.
  destruct param_value as [| | | | | l |]; try (intros [= <-]; left; reflexivity).
  destruct (Z.eqb_spec (Z.of_nat (length l)) required_length) as [Hlen |];
    simpl; [| intros [= <-]; left; reflexivity].
  destruct (floats float_of l) as [fs' | e'] eqn:Ef; [discriminate |].
  destruct (Builtins.is_ValueError e') eqn:Ev; simpl;
    [intros [= <-]; left; reflexivity |].
  destruct (Builtins.is_TypeError e') eqn:Et; simpl;
    [intros [= <-]; left; reflexivity |].
  intros [= <-]. right.
  destruct (floats_Raise _ _ Ef) as (val & Hin & Hv).
  exists l, val. auto.
Qed.

End VectorParams.

Section EditorTools.

Context {codec : Codec}.
Variables (env env' : environment).

Lemma failure_not_empty (message : str) :
  exists d, failure message = VDict d /\ d <> ∅.
Proof. eexists. split; [reflexivity |]. apply insert_non_empty. Qed.

(** [unreal.send_command(...)] on the object that the module holds. *)
Lemma method_send_command (command : str) (params : value) (p : process)
    (c : UnrealConnection) :
  _unreal_connection p = Some c ->
  exists (v : value) (p' : process) (t : list event),
    method "send_command" (send_command env' command params) p = (Ok v, p', t) /\
    Ok v = result (send_command env' command params
                     (mkState c (sockets_created p) (calls_made p))) /\
    (v = VNone \/ exists d, v = VDict d).
Proof.
  intros Hg. unfold method. rewrite Hg.
  set (s := mkState c (sockets_created p) (calls_made p)).
  destruct (send_command_returns_None_or_dict_aux env' command params s)
    as (v & s' & t & E & Hv).
  rewrite E. eexists _, _, _. split; [reflexivity |]. split; [reflexivity | exact Hv].
Qed.

Lemma delete_actor_invalid (name : value) (e : exn) (p : process) :
  validate_actor_name name = Raise e ->
  delete_actor env env' name p =
    (Ok (failure ("Validation error: " +:+ exc_text e)), p, []).
Proof.
  intros H. unfold delete_actor. unfold_global. rewrite H. simpl.
  unfold Builtins.is_ValueError. rewrite (validate_actor_name_raises _ _ H).
  reflexivity.
Qed.

(** X22. A name that is not valid stops [delete_actor] before it does
    anything else: no connection is asked for, no socket is touched, and the
    result carries the text of the validation error. *)
Theorem delete_actor_rejects_before_connecting (name : value) (e : exn)
    (p : process) :
  validate_actor_name name = Raise e ->
  delete_actor env env' name p =
    (Ok (failure ("Validation error: " +:+ exc_text e)), p, []).
Proof.
  intros H. unfold delete_actor. unfold_global. rewrite H. simpl.
  assert (He : Builtins.is_ValueError e = true).
  { unfold Builtins.is_ValueError. rewrite (validate_actor_name_raises _ _ H).
    reflexivity. }
  rewrite He. reflexivity.
Qed.

(** X23. [delete_actor] never raises, and what it returns is always a [dict]
    that is not empty: a response of the peer, or a failure with a message. *)
Theorem delete_actor_returns_nonempty_dict (name : value) (p : process) :
  exists (d : gmap string value) (p' : process) (t : list event),
    delete_actor env env' name p = (Ok (VDict d), p', t) /\ d <> ∅.
Proof.
  destruct (validate_actor_name name) as [n | e] eqn:Hv.
  { unfold delete_actor. unfold Global.try_except, Global.bind at 1, Global.lift.
    rewrite Hv.
    destruct (get_unreal_connection_total env p) as (r & p1 & t1 & E & Hg).
    unfold Global.bind. rewrite E.
    destruct r as [c |].
    - destruct (method_send_command "delete_actor"
                  (VDict (<["name" := VStr n]> ∅)) p1 c Hg)
        as (v & p2 & t2 & E2 & _ & Hshape).
      rewrite E2.
      destruct Hshape as [-> | (d & ->)]; simpl.
      + destruct (failure_not_empty "No response from Unreal Engine") as (d & -> & Hd).
        eauto.
      + unfold Global.ret. destruct (bool_decide (d = ∅)) eqn:Ed; simpl.
        * destruct (failure_not_empty "No response from Unreal Engine")
            as (d' & -> & Hd).
          eauto.
        * apply bool_decide_eq_false in Ed. eauto.
    - simpl.
      destruct (failure_not_empty "Failed to connect to Unreal Engine") as (d & -> & Hd).
      eauto. }
  rewrite (delete_actor_invalid _ _ _ Hv).
  destruct (failure_not_empty ("Validation error: " +:+ exc_text e)) as (d & -> & Hd).
  eauto.
Qed.

(** X24. An answer of the peer that is the empty object is taken for no
    answer at all: [delete_actor] reports that there was no response. *)
Theorem empty_reply_is_no_response (name : value) (n : str) (p : process)
    (c : UnrealConnection) :
  validate_actor_name name = Ok n ->
  let got := get_unreal_connection env p in
  Global.result got = Ok (Some c) ->
  parsed_response env' "delete_actor" (VDict (<["name" := VStr n]> ∅))
    (mkState c (sockets_created (Global.after got)) (calls_made (Global.after got)))
    = Some (VDict ∅) ->
  Global.result (delete_actor env env' name p) =
    Ok (failure "No response from Unreal Engine").
Proof.
  intros Hv got Hr Hp. subst got.
  destruct (get_unreal_connection_total env p) as (r & p1 & t1 & E & Hg).
  rewrite E in *. unfold Global.result, Global.after in *. simpl in *.
  injection Hr as ->.
  unfold delete_actor. unfold Global.try_except, Global.bind at 1, Global.lift.
  rewrite Hv. unfold Global.bind. rewrite E.
  destruct (method_send_command "delete_actor"
              (VDict (<["name" := VStr n]> ∅)) p1 c Hg)
    as (v & p2 & t2 & E2 & Hres & _).
  rewrite E2.
  rewrite (send_command_parsed _ _ _ _ _ Hp) in Hres. injection Hres as ->.
  reflexivity.
Qed.

Lemma find_key_cases (key : str) (container : value) :
  (exists e, Builtins.find_key key container = Raise e) \/
  Builtins.find_key key container = Ok None \/
  (exists v, Builtins.find_key key container = Ok (Some v)).
Proof.
  destruct (Builtins.find_key key container) as [[v |] | e]; eauto.
Qed.

(** X25. [get_actors_in_level] never raises, and what it returns has a
    length: it is a list, a string or a mapping, and never [None], a number
    or a boolean, whatever the peer has put under the key [actors]. *)
Theorem get_actors_in_level_returns_sized (p : process) :
  exists (v : value) (p' : process) (t : list event),
    get_actors_in_level env env' p = (Ok v, p', t) /\
    exists n, Builtins.len v = Ok n.
Proof.
  assert (Hempty : exists n, Builtins.len (VList []) = Ok n) by (eexists; reflexivity).
  assert (Hlen : forall v, (exists e, Builtins.len v = Raise e) \/
                           (exists n, Builtins.len v = Ok n)).
  { intros v. destruct (Builtins.len v); eauto. }
  unfold get_actors_in_level. unfold Global.try_except, Global.bind at 1.
  destruct (get_unreal_connection_total env p) as (r & p1 & t1 & E & Hg).
  rewrite E. destruct r as [c |]; [| unfold Global.ret; eauto 6].
  unfold Global.bind at 1.
  destruct (method_send_command "get_actors_in_level" (VDict ∅) p1 c Hg)
    as (response & p2 & t2 & E2 & _ & _).
  rewrite E2. destruct (truthy response); simpl; [| unfold Global.ret; eauto 6].
  unfold_global.
  destruct (Builtins.find_key "result" response) as [[result |] | e1]; simpl;
    [| | eauto 6].
  - destruct (Builtins.find_key "actors" result) as [[actors |] | e2]; simpl;
      [| | eauto 6].
    + destruct (Hlen actors) as [(e3 & ->) | (n & Hn)]; simpl; [eauto 6 |].
      rewrite Hn. simpl. eauto 6.
    + destruct (Builtins.find_key "actors" response) as [[actors |] | e2]; simpl;
        [| eauto 6 | eauto 6].
      destruct (Hlen actors) as [(e3 & ->) | (n & Hn)]; simpl; [eauto 6 |].
      rewrite Hn. simpl. eauto 6.
  - destruct (Builtins.find_key "actors" response) as [[actors |] | e2]; simpl;
      [| eauto 6 | eauto 6].
    destruct (Hlen actors) as [(e3 & ->) | (n & Hn)]; simpl; [eauto 6 |].
    rewrite Hn. simpl. eauto 6.
Qed.

End EditorTools.

(** ** The configuration manager *)

Section Nested.

Lemma split_not_empty (sep : ascii) (s : string) : Builtins.split sep s <> [].
Proof.
  destruct s as [| c r]; simpl; [discriminate |].
  destruct (Ascii.eqb c sep); [discriminate |].
  destruct (Builtins.split sep r); discriminate.
Qed.

(** On a [dict] that has none of the keys, the walk cannot fail. *)
Lemma set_nested_fresh (keys : list str) (last : str) (v : value) :
  exists current', set_nested keys last v (VDict ∅) = (Ok tt, current').
Proof.
  induction keys as [| key keys IH]; simpl; [eauto |].
  rewrite lookup_empty. destruct IH as (child' & ->). eauto.
Qed.

Lemma set_nested_raises (keys : list str) (last : str) (v : value)
    (current current' : value) (e : exn) :
  set_nested keys last v current = (Raise e, current') ->
  current' = current /\ exc_type e = TypeError.
Proof.
  revert current current'. induction keys as [| key keys IH]; intros current current'.
  - simpl. destruct current; intros [= <- <-]; auto.
  - simpl. destruct current as [| | | | | | d];
      try (unfold Builtins.contains_key; simpl; intros [= <- <-]; auto; fail).
    + unfold Builtins.contains_key.
      destruct (Builtins.contains key s); intros [= <- <-]; auto.
    + unfold Builtins.contains_key.
      destruct (existsb _ l); intros [= <- <-]; auto.
    + destruct (d !! key) as [child |] eqn:Ek.
      * destruct (set_nested keys last v child) as [r child'] eqn:Er.
        intros [= -> <-]. destruct (IH _ _ Er) as [-> He].
        split; [| exact He]. rewrite insert_id by exact Ek. reflexivity.
      * destruct (set_nested_fresh keys last v) as (child' & ->). discriminate.
Qed.

Lemma set_nested_found (keys : list str) (last : str) (v : value)
    (current current' : value) :
  set_nested keys last v current = (Ok tt, current') ->
  get_nested (keys ++ [last]) current' = Some v.
Proof.
  revert current current'. induction keys as [| key keys IH]; intros current current'.
  - simpl. destruct current as [| | | | | | d]; try discriminate.
    intros [= <-]. simpl. rewrite lookup_insert_eq. reflexivity.
  - simpl. destruct current as [| | | | | | d];
      try (destruct (Builtins.contains_key key _) as [[|] |]; discriminate).
    destruct (set_nested keys last v _) as [r child'] eqn:Er.
    intros [= -> <-]. simpl. rewrite lookup_insert_eq. exact (IH _ _ Er).
Qed.

(** X26. When [_set_nested_value] returns, the value can be read back along
    the path: [config_dict[k1]...[kn]] is the value that was set, for the
    keys [k1], ..., [kn] of the dotted path. *)
Theorem set_nested_value_then_get (config_dict config_dict' : value)
    (path : str) (v : value) :
  _set_nested_value config_dict path v = (Ok tt, config_dict') ->
  get_nested (Builtins.split "." path) config_dict' = Some v.
Proof.
  unfold _set_nested_value. intros H.
  rewrite (app_removelast_last "" (split_not_empty "." path)).
  exact (set_nested_found _ _ _ _ _ H).
Qed.

(** X27. [_set_nested_value] fails only where the path runs into something
    that is not a [dict]; it then raises a [TypeError] and has changed
    nothing, although it creates the missing dicts of the path as it goes. *)
Theorem set_nested_value_is_atomic (config_dict config_dict' : value)
    (path : str) (v : value) (e : exn) :
  _set_nested_value config_dict path v = (Raise e, config_dict') ->
  config_dict' = config_dict /\ exc_type e = TypeError.
Proof. unfold _set_nested_value. apply set_nested_raises. Qed.

End Nested.

Section Overriding.

Variable getenv : str -> option str.
Variable int : str -> outcome Z.
Variable lower : str -> str.

Lemma has_host_get (h : str) (config_dict : value) :
  has_host h config_dict ->
  get_nested ["connection"; "host"] config_dict = Some (VStr h).
Proof. intros (d & c & -> & Hc & Hh). simpl. rewrite Hc, Hh. reflexivity. Qed.

Lemma set_top_keeps_host (h : str) (config_dict : value) (key : str) (v : value) :
  key <> "connection" ->
  has_host h config_dict ->
  has_host h (snd (set_nested [] key v config_dict)).
Proof.
  intros Hk (d & c & -> & Hc & Hh). simpl. exists (<[key := v]> d), c.
  split; [reflexivity |]. split; [| exact Hh].
  rewrite lookup_insert_ne by exact Hk. exact Hc.
Qed.

Lemma set_other_section_keeps_host (h : str) (config_dict : value)
    (section key : str) (v : value) :
  section <> "connection" ->
  has_host h config_dict ->
  has_host h (snd (set_nested [section] key v config_dict)).
Proof.
  intros Hk (d & c & -> & Hc & Hh).
  change (set_nested [section] key v (VDict d))
    with (let '(r, child') :=
            set_nested [] key v
              (match d !! section with Some child => child | None => VDict ∅ end) in
          (r, VDict (<[section := child']> d))).
  destruct (set_nested [] key v _) as [r child']. simpl.
  exists (<[section := child']> d), c.
  split; [reflexivity |]. split; [| exact Hh].
  rewrite lookup_insert_ne by exact Hk. exact Hc.
Qed.

Lemma set_other_key_keeps_host (h : str) (config_dict : value)
    (key : str) (v : value) :
  key <> "host" ->
  has_host h config_dict ->
  has_host h (snd (set_nested ["connection"] key v config_dict)).
Proof.
  intros Hk (d & c & -> & Hc & Hh). simpl. rewrite Hc. simpl.
  exists (<["connection" := VDict (<[key := v]> c)]> d), (<[key := v]> c).
  split; [reflexivity |]. split; [apply lookup_insert_eq |].
  rewrite lookup_insert_ne by exact Hk. exact Hh.
Qed.

Lemma later_override_keeps_host (h : str) (config_dict : value)
    (mapping : str * (str * (str -> outcome value))) :
  In mapping (tl (env_mappings int lower)) ->
  has_host h config_dict ->
  has_host h (apply_override getenv config_dict mapping).
Proof.
  intros Hin Hh. simpl in Hin.
  repeat destruct Hin as [<- | Hin]; try contradiction;
    unfold apply_override; destruct (getenv _) as [env_value |]; try exact Hh;
    unfold _set_nested_value; simpl.
  - destruct (int env_value); [| exact Hh].
    apply set_other_key_keeps_host; [discriminate | exact Hh].
  - destruct (int env_value); [| exact Hh].
    apply set_other_key_keeps_host; [discriminate | exact Hh].
  - apply set_other_section_keeps_host; [discriminate | exact Hh].
  - apply set_other_section_keeps_host; [discriminate | exact Hh].
  - apply set_other_section_keeps_host; [discriminate | exact Hh].
  - apply set_other_section_keeps_host; [discriminate | exact Hh].
  - apply set_top_keeps_host; [discriminate | exact Hh].
  - apply set_top_keeps_host; [discriminate | exact Hh].
Qed.

Lemma fold_keeps_host (h : str)
    (mappings : list (str * (str * (str -> outcome value)))) (config_dict : value) :
  (forall mapping, In mapping mappings ->
     In mapping (tl (env_mappings int lower))) ->
  has_host h config_dict ->
  has_host h (fold_left (apply_override getenv) mappings config_dict).
Proof.
  revert config_dict. induction mappings as [| mapping mappings IH];
    intros config_dict Hsub Hh; simpl; [exact Hh |].
  apply IH; [intros m Hm; apply Hsub; right; exact Hm |].
  apply later_override_keeps_host; [apply Hsub; left; reflexivity | exact Hh].
Qed.

(** X28. The environment wins over the file: when [UNREAL_MCP_HOST] is set
    and the section ["connection"] of the configuration is a mapping or is
    missing, then after [apply_environment_overrides] the configuration has
    the value of the variable as [connection.host], whatever the file said
    and whatever the other variables are. *)
Theorem host_override_wins (config_dict : gmap string value) (h : str) :
  getenv "UNREAL_MCP_HOST" = Some h ->
  (config_dict !! "connection" = None \/
   exists c, config_dict !! "connection" = Some (VDict c)) ->
  get_nested ["connection"; "host"]
    (apply_environment_overrides getenv int lower (VDict config_dict))
  = Some (VStr h).
Proof.
  intros Hh Hc. apply has_host_get.
  unfold apply_environment_overrides.
  change (env_mappings int lower)
    with (hd ("", ("", fun x => Ok VNone)) (env_mappings int lower)
          :: tl (env_mappings int lower)).
  simpl hd. cbn [fold_left].
  apply fold_keeps_host; [auto |].
  unfold apply_override. rewrite Hh. unfold _set_nested_value. simpl.
  destruct Hc as [-> | (c & ->)]; simpl;
    eexists _, _; (split; [reflexivity |]);
    (split; [apply lookup_insert_eq | apply lookup_insert_eq]).
Qed.

(** X29. When the section ["connection"] of the configuration is there but
    is not a mapping, the override of the host is dropped without a trace:
    the section is left as it was. *)
Theorem host_override_dropped (config_dict : gmap string value) (x : value) :
  config_dict !! "connection" = Some x ->
  (forall c, x <> VDict c) ->
  exists d,
    apply_environment_overrides getenv int lower (VDict config_dict) = VDict d /\
    d !! "connection" = Some x.
Proof.
  intros Hc Hx.
  set (keeps := fun config => exists d, config = VDict d /\ d !! "connection" = Some x).
  assert (Hnested : forall config key v,
            keeps config -> snd (set_nested ["connection"] key v config) = config).
  { intros config key v (d & -> & Hd).
    destruct (set_nested ["connection"] key v (VDict d)) as [[[] | e] config'] eqn:E.
    - simpl in E. rewrite Hd in E.
      destruct x as [| b | z | f | s | l | c]; simpl in E;
        try discriminate;
        try (destruct (Builtins.contains "connection" s); discriminate);
        try (destruct (existsb _ l); discriminate).
      destruct (Hx c eq_refl).
    - destruct (set_nested_raises _ _ _ _ _ _ E) as [-> _]. reflexivity. }
  assert (Hother : forall config section key v,
            section <> "connection" -> keeps config ->
            keeps (snd (set_nested [section] key v config))).
  { intros config section key v Hs (d & -> & Hd).
    change (set_nested [section] key v (VDict d))
      with (let '(r, child') :=
              set_nested [] key v
                (match d !! section with Some child => child | None => VDict ∅ end) in
            (r, VDict (<[section := child']> d))).
    destruct (set_nested [] key v _) as [r child']. simpl.
    eexists. split; [reflexivity |].
    rewrite lookup_insert_ne by exact Hs. exact Hd. }
  assert (Htop : forall config key v,
            key <> "connection" -> keeps config ->
            keeps (snd (set_nested [] key v config))).
  { intros config key v Hk (d & -> & Hd). simpl.
    eexists. split; [reflexivity |].
    rewrite lookup_insert_ne by exact Hk. exact Hd. }
  assert (Hstep : forall config mapping,
            In mapping (env_mappings int lower) -> keeps config ->
            keeps (apply_override getenv config mapping)).
  { intros config mapping Hin Hk. simpl in Hin.
    repeat destruct Hin as [<- | Hin]; try contradiction;
      unfold apply_override; destruct (getenv _) as [env_value |]; try exact Hk;
      unfold _set_nested_value; simpl Builtins.split; cbn [removelast List.last].
    - rewrite Hnested by exact Hk. exact Hk.
    - destruct (int env_value); [| exact Hk]. rewrite Hnested by exact Hk. exact Hk.
    - destruct (int env_value); [| exact Hk]. rewrite Hnested by exact Hk. exact Hk.
    - apply Hother; [discriminate | exact Hk].
    - apply Hother; [discriminate | exact Hk].
    - apply Hother; [discriminate | exact Hk].
    - apply Hother; [discriminate | exact Hk].
    - apply Htop; [discriminate | exact Hk].
    - apply Htop; [discriminate | exact Hk]. }
  assert (Hfold : forall mappings config,
            (forall m, In m mappings -> In m (env_mappings int lower)) ->
            keeps config ->
            keeps (fold_left (apply_override getenv) mappings config)).
  { induction mappings as [| m ms IH]; intros config Hsub Hk; simpl; [exact Hk |].
    apply IH; [intros m' Hm'; apply Hsub; right; exact Hm' |].
    apply Hstep; [apply Hsub; left; reflexivity | exact Hk]. }
  apply Hfold; [auto |]. exists config_dict. auto.
Qed.

End Overriding.

Section Finding.

Variable Path : Type.
Variable joinpath : Path -> str -> Path.
Variable path_exists : Path -> outcome bool.
Variable cwd : outcome Path.

Lemma first_existing_found (directory : outcome Path) (names : list str) (p : Path) :
  first_existing Path joinpath path_exists directory names = Ok (Some p) ->
  exists d before name after,
    directory = Ok d /\
    names = before ++ name :: after /\
    p = joinpath d name /\
    path_exists p = Ok true /\
    Forall (fun earlier => path_exists (joinpath d earlier) = Ok false) before.
Proof.
  induction names as [| filename names IH]; simpl; [discriminate |].
  destruct directory as [d | e]; [| discriminate].
  destruct (path_exists (joinpath d filename)) as [[|] | e] eqn:E; [| | discriminate].
  - intros [= <-]. exists d, [], filename, names. repeat split; [exact E | constructor].
  - intros H. destruct (IH H) as (d' & before & name & after & [= <-] & -> & -> & Hp & Hb).
    exists d, (filename :: before), name, after.
    repeat split; [exact Hp | constructor; assumption].
Qed.

Lemma first_existing_none (d : Path) (names : list str) :
  first_existing Path joinpath path_exists (Ok d) names = Ok None ->
  Forall (fun name => path_exists (joinpath d name) = Ok false) names.
Proof.
  induction names as [| filename names IH]; simpl; [constructor |].
  destruct (path_exists (joinpath d filename)) as [[|] | e] eqn:E; try discriminate.
  intros H. constructor; [exact E | exact (IH H)].
Qed.

(** X30. The file that [find_config_file] returns exists and is the first
    one that does, in this order: the eight names of [config_files] in the
    configuration directory, then the same eight names in the current
    directory. A file of the current directory is found only when the
    configuration directory has none of the eight. *)
Theorem config_file_precedence (config_dir : Path) (p : Path) :
  find_config_file Path joinpath path_exists cwd config_dir = Ok (Some p) ->
  exists directory before name after,
    config_files = before ++ name :: after /\
    p = joinpath directory name /\
    path_exists p = Ok true /\
    Forall (fun earlier => path_exists (joinpath directory earlier) = Ok false) before /\
    (directory = config_dir \/
     (cwd = Ok directory /\
      Forall (fun any => path_exists (joinpath config_dir any) = Ok false)
        config_files)).
Proof.
  unfold find_config_file.
  destruct (first_existing Path joinpath path_exists (Ok config_dir) config_files)
    as [[found |] | e] eqn:E; [| | discriminate].
  - intros [= ->].
    destruct (first_existing_found _ _ _ E)
      as (d & before & name & after & [= <-] & Hn & Hp & He & Hb).
    exists config_dir, before, name, after. auto 6.
  - intros H.
    destruct (first_existing_found _ _ _ H)
      as (d & before & name & after & Hd & Hn & Hp & He & Hb).
    exists d, before, name, after. repeat split; try assumption.
    right. split; [exact Hd | exact (first_existing_none _ _ E)].
Qed.

End Finding.

(** ** The further properties at concrete inputs *)

Section Instances.

#[local] Existing Instance Reference.codec.

Lemma successful_connect_configures_socket_witness :
  connect (peer []) initial =
    (Ok true, mkState (mkConnection (Some 0) true) 1 6,
     NewSocket 0 :: map (Call 0) (setup_calls default_config)) /\
  exists config,
    get_config (peer []) = Ok config /\
    NewSocket 0 :: map (Call 0) (setup_calls default_config) =
      discard_events initial
      ++ NewSocket (next_handle initial)
         :: map (Call (next_handle initial))
              [SetTimeout (timeout config);
               SetSockOpt TCP_NODELAY 1;
               SetSockOpt SO_KEEPALIVE 1;
               SetSockOpt SO_RCVBUF (buffer_size config);
               SetSockOpt SO_SNDBUF (buffer_size config);
               Connect (host config) (port config)] /\
    self (mkState (mkConnection (Some 0) true) 1 6) =
      mkConnection (Some (next_handle initial)) true /\
    next_handle (mkState (mkConnection (Some 0) true) 1 6) = S (next_handle initial).
Proof.
  assert (H : connect (peer []) initial =
              (Ok true, mkState (mkConnection (Some 0) true) 1 6,
               NewSocket 0 :: map (Call 0) (setup_calls default_config)))
    by reflexivity.
  split; [exact H |].
  exact (successful_connect_configures_socket (peer []) initial _ _ H).
Defined.

Lemma failure_marker_has_error_entry_witness :
  let d : gmap string value :=
    <["status" := VStr "error"]>
      (<["message" := VStr "X"]> (<["error" := VStr "X"]> ∅)) in
  result (send_command legacy_error "get_actors_in_level" (VDict ∅) initial) =
    Ok (VDict d) /\
  d !! "status" = Some (VStr "error") /\
  exists m, d !! "error" = Some m.
Proof.
  intros d.
  assert (H1 : result (send_command legacy_error "get_actors_in_level" (VDict ∅)
                         initial) = Ok (VDict d)) by (vm_compute; reflexivity).
  assert (H2 : d !! "status" = Some (VStr "error")) by reflexivity.
  refine (conj H1 (conj H2 _)).
  exact (failure_marker_has_error_entry legacy_error "get_actors_in_level"
           (VDict ∅) initial d H1 H2).
Defined.

Lemma ordinary_response_is_returned_unchanged_witness :
  let d : gmap string value :=
    <["success" := VBool true]>
      (<["result" := VDict (<["actors" := VList []]> ∅)]> ∅) in
  parsed_response actors_response "get_actors_in_level" (VDict ∅) initial =
    Some (VDict d) /\
  d !! "status" <> Some (VStr "error") /\
  d !! "success" <> Some (VBool false) /\
  result (send_command actors_response "get_actors_in_level" (VDict ∅) initial) =
    Ok (VDict d).
Proof.
  intros d.
  assert (H1 : parsed_response actors_response "get_actors_in_level" (VDict ∅)
                 initial = Some (VDict d)) by (vm_compute; reflexivity).
  assert (H2 : d !! "status" <> Some (VStr "error")) by discriminate.
  assert (H3 : d !! "success" <> Some (VBool false)) by discriminate.
  refine (conj H1 (conj H2 (conj H3 _))).
  exact (ordinary_response_is_returned_unchanged actors_response
           "get_actors_in_level" (VDict ∅) initial d H1 H2 H3).
Defined.

Lemma opened_socket_is_closed_witness :
  let r := send_command actors_response "get_actors_in_level" (VDict ∅) initial in
  result r <> Ok VNone /\
  exists config t,
    get_config actors_response = Ok config /\
    events r =
      discard_events initial
      ++ NewSocket (next_handle initial)
         :: map (Call (next_handle initial)) (setup_calls config)
      ++ t ++ [Call (next_handle initial) Close] /\
    Forall (fun ev => is_close ev = false) t.
Proof.
  intros r.
  assert (H : result r <> Ok VNone) by (vm_compute; discriminate).
  split; [exact H |].
  exact (opened_socket_is_closed actors_response "get_actors_in_level" (VDict ∅)
           initial H).
Defined.

Lemma received_bytes_are_first_complete_document_witness :
  let r := receive_full_response fragments 0 4096 initial in
  let data := utf8 (json_text "{'success': true}") in
  result r = Ok (Some data) /\
  exists chunks rest,
    recv_script fragments = map Ok chunks ++ rest /\
    chunks <> [] /\
    Forall (fun chunk => chunk <> []) chunks /\
    data = concat chunks /\
    parses data = true /\
    (forall k, (0 < k < length chunks)%nat ->
       parses (concat (take k chunks)) = false) /\
    events r =
      Call 0 (SetTimeout 5) :: replicate (length chunks) (Call 0 (Recv 4096)).
Proof.
  intros r data.
  assert (H : result r = Ok (Some data)) by (vm_compute; reflexivity).
  split; [exact H |].
  exact (received_bytes_are_first_complete_document fragments 0 4096 initial data H).
Defined.

Lemma returned_connection_holds_socket_witness :
  let r := get_unreal_connection (peer []) loaded in
  Global.result r = Ok (Some (mkConnection (Some 0) true)) /\
  exists h,
    socket (mkConnection (Some 0) true) = Some h /\
    ((connected (mkConnection (Some 0) true) = true /\
      In (NewSocket h) (Global.events r)) \/
     (_unreal_connection loaded = Some (mkConnection (Some 0) true) /\
      Global.events r = [Call h (SendAll [x00])])).
Proof.
  intros r.
  assert (H : Global.result r = Ok (Some (mkConnection (Some 0) true)))
    by reflexivity.
  split; [exact H |].
  exact (returned_connection_holds_socket (peer []) loaded _ H).
Defined.

Lemma connection_is_replaced_after_command_witness :
  let sent :=
    method "send_command"
      (send_command actors_response "get_actors_in_level" (VDict ∅))
      connected_once in
  let p' := Global.after sent in
  _unreal_connection connected_once = Some (mkConnection (Some 0) true) /\
  Global.result sent <> Ok VNone /\
  get_unreal_connection (peer []) p' =
    get_unreal_connection (peer [])
      (mkProcess None (sockets_created p') (calls_made p')) /\
  Forall (fun ev => is_send ev = false)
    (Global.events (get_unreal_connection (peer []) p')).
Proof.
  intros sent p'.
  assert (H1 : _unreal_connection connected_once =
               Some (mkConnection (Some 0) true)) by reflexivity.
  assert (H2 : Global.result sent <> Ok VNone) by (vm_compute; discriminate).
  refine (conj H1 (conj H2 _)).
  exact (connection_is_replaced_after_command (peer []) actors_response
           "get_actors_in_level" (VDict ∅) connected_once _ H1 H2).
Defined.

Lemma command_discards_shared_socket_witness :
  let got := get_unreal_connection (peer []) loaded in
  let own := sockets_created (Global.after got) in
  Global.result got = Ok (Some (mkConnection (Some 0) true)) /\
  socket (mkConnection (Some 0) true) = Some 0 /\
  exists rest,
    Global.events
      (method "send_command"
         (send_command actors_response "get_actors_in_level" (VDict ∅))
         (Global.after got))
    = Call 0 Close :: rest /\
    Forall (fun ev => ev = NewSocket own \/ on_handle own ev) rest.
Proof.
  intros got own.
  assert (H1 : Global.result got = Ok (Some (mkConnection (Some 0) true)))
    by reflexivity.
  assert (H2 : socket (mkConnection (Some 0) true) = Some 0) by reflexivity.
  refine (conj H1 (conj H2 _)).
  exact (command_discards_shared_socket (peer []) actors_response
           "get_actors_in_level" (VDict ∅) loaded _ 0 H1 H2).
Defined.

Lemma validated_name_is_clean_witness :
  validate_actor_name (VStr "  Cube_1 ") = Ok "Cube_1" /\
  (exists s, VStr "  Cube_1 " = VStr s /\ "Cube_1" = Builtins.strip s) /\
  "Cube_1" <> "" /\
  Forall (fun char => Builtins.contains char "Cube_1" = false) invalid_chars.
Proof.
  assert (H : validate_actor_name (VStr "  Cube_1 ") = Ok "Cube_1")
    by (vm_compute; reflexivity).
  split; [exact H |].
  exact (validated_name_is_clean (VStr "  Cube_1 ") "Cube_1" H).
Defined.

Lemma validate_actor_name_idempotent_witness :
  validate_actor_name (VStr "  Cube_1 ") = Ok "Cube_1" /\
  validate_actor_name (VStr "Cube_1") = Ok "Cube_1".
Proof.
  assert (H : validate_actor_name (VStr "  Cube_1 ") = Ok "Cube_1")
    by (vm_compute; reflexivity).
  split; [exact H |].
  exact (validate_actor_name_idempotent (VStr "  Cube_1 ") "Cube_1" H).
Defined.

Lemma delete_actor_rejects_before_connecting_witness :
  let e := mkExn ValueError "Actor name cannot contain '/'" in
  validate_actor_name (VStr "Props/Cube") = Raise e /\
  delete_actor (peer []) actors_response (VStr "Props/Cube") loaded =
    (Ok (failure ("Validation error: " +:+ exc_text e)), loaded, []).
Proof.
  intros e.
  assert (H : validate_actor_name (VStr "Props/Cube") = Raise e)
    by (vm_compute; reflexivity).
  split; [exact H |].
  exact (delete_actor_rejects_before_connecting (peer []) actors_response
           (VStr "Props/Cube") e loaded H).
Defined.

Lemma empty_reply_is_no_response_witness :
  let got := get_unreal_connection (peer []) loaded in
  validate_actor_name (VStr "Cube") = Ok "Cube" /\
  Global.result got = Ok (Some (mkConnection (Some 0) true)) /\
  parsed_response empty_object "delete_actor" (VDict (<["name" := VStr "Cube"]> ∅))
    (mkState (mkConnection (Some 0) true)
       (sockets_created (Global.after got)) (calls_made (Global.after got)))
    = Some (VDict ∅) /\
  Global.result (delete_actor (peer []) empty_object (VStr "Cube") loaded) =
    Ok (failure "No response from Unreal Engine").
Proof.
  intros got.
  assert (H1 : validate_actor_name (VStr "Cube") = Ok "Cube")
    by (vm_compute; reflexivity).
  assert (H2 : Global.result got = Ok (Some (mkConnection (Some 0) true)))
    by reflexivity.
  assert (H3 : parsed_response empty_object "delete_actor"
                 (VDict (<["name" := VStr "Cube"]> ∅))
                 (mkState (mkConnection (Some 0) true)
                    (sockets_created (Global.after got))
                    (calls_made (Global.after got)))
               = Some (VDict ∅)) by (vm_compute; reflexivity).
  refine (conj H1 (conj H2 (conj H3 _))).
  exact (empty_reply_is_no_response (peer []) empty_object (VStr "Cube") "Cube"
           loaded _ H1 H2 H3).
Defined.

Lemma validated_vector_has_required_length_witness :
  let fs := [S754_zero false; S754_zero false; S754_zero true] in
  let param_value := VList (map VFloat fs) in
  validate_vector_param float_only "location" param_value 3 = Ok fs /\
  exists l,
    param_value = VList l /\
    Z.of_nat (length l) = 3%Z /\
    Forall2 (fun val f => float_only val = Ok f) l fs.
Proof.
  intros fs param_value.
  assert (H : validate_vector_param float_only "location" param_value 3 = Ok fs)
    by reflexivity.
  split; [exact H |].
  exact (validated_vector_has_required_length float_only "location" param_value
           3 fs H).
Defined.

Lemma invalid_vector_raises_ValueError_witness :
  let e := mkExn ValueError "rotation must have exactly 3 elements, got 2" in
  let param_value := VList [VFloat (S754_zero false); VFloat (S754_zero false)] in
  validate_vector_param float_only "rotation" param_value 3 = Raise e /\
  (exc_type e = ValueError \/
   exists l val,
     param_value = VList l /\ In val l /\ float_only val = Raise e /\
     Builtins.is_ValueError e = false /\ Builtins.is_TypeError e = false).
Proof.
  intros e param_value.
  assert (H : validate_vector_param float_only "rotation" param_value 3 = Raise e)
    by (vm_compute; reflexivity).
  split; [exact H |].
  exact (invalid_vector_raises_ValueError float_only "rotation" param_value 3 e H).
Defined.

Lemma set_nested_value_then_get_witness :
  let config_dict' :=
    VDict (<["connection" := VDict (<["host" := VStr "10.0.0.5"]> ∅)]> ∅) in
  _set_nested_value (VDict ∅) "connection.host" (VStr "10.0.0.5") =
    (Ok tt, config_dict') /\
  get_nested (Builtins.split "." "connection.host") config_dict' =
    Some (VStr "10.0.0.5").
Proof.
  intros config_dict'.
  assert (H : _set_nested_value (VDict ∅) "connection.host" (VStr "10.0.0.5") =
              (Ok tt, config_dict')) by (vm_compute; reflexivity).
  split; [exact H |].
  exact (set_nested_value_then_get (VDict ∅) config_dict' "connection.host"
           (VStr "10.0.0.5") H).
Defined.

Lemma set_nested_value_is_atomic_witness :
  let e := mkExn TypeError "'str' object does not support item assignment" in
  _set_nested_value (VDict misconfigured) "connection.host" (VStr "10.0.0.5") =
    (Raise e, VDict misconfigured) /\
  VDict misconfigured = VDict misconfigured /\ exc_type e = TypeError.
Proof.
  intros e.
  assert (H : _set_nested_value (VDict misconfigured) "connection.host"
                (VStr "10.0.0.5") = (Raise e, VDict misconfigured))
    by (vm_compute; reflexivity).
  split; [exact H |].
  exact (set_nested_value_is_atomic (VDict misconfigured) (VDict misconfigured)
           "connection.host" (VStr "10.0.0.5") e H).
Defined.

Lemma host_override_wins_witness :
  only_host "UNREAL_MCP_HOST" = Some "10.0.0.5" /\
  (file_config !! "connection" = None \/
   exists c, file_config !! "connection" = Some (VDict c)) /\
  get_nested ["connection"; "host"]
    (apply_environment_overrides only_host no_int same_text (VDict file_config))
  = Some (VStr "10.0.0.5").
Proof.
  assert (H1 : only_host "UNREAL_MCP_HOST" = Some "10.0.0.5") by reflexivity.
  assert (H2 : file_config !! "connection" = None \/
               exists c, file_config !! "connection" = Some (VDict c)).
  { right. eexists. reflexivity. }
  refine (conj H1 (conj H2 _)).
  exact (host_override_wins only_host no_int same_text file_config "10.0.0.5" H1 H2).
Defined.

Lemma host_override_dropped_witness :
  misconfigured !! "connection" = Some (VStr "local") /\
  (forall c, VStr "local" <> VDict c) /\
  exists d,
    apply_environment_overrides only_host no_int same_text (VDict misconfigured)
    = VDict d /\
    d !! "connection" = Some (VStr "local").
Proof.
  assert (H1 : misconfigured !! "connection" = Some (VStr "local")) by reflexivity.
  assert (H2 : forall c, VStr "local" <> VDict c) by discriminate.
  refine (conj H1 (conj H2 _)).
  exact (host_override_dropped only_host no_int same_text misconfigured
           (VStr "local") H1 H2).
Defined.

Lemma config_file_precedence_witness :
  find_config_file string joined on_disk (Ok ".") "config" =
    Ok (Some "config/config.json") /\
  exists directory before name after,
    config_files = before ++ name :: after /\
    "config/config.json" = joined directory name /\
    on_disk "config/config.json" = Ok true /\
    Forall (fun earlier => on_disk (joined directory earlier) = Ok false) before /\
    (directory = "config" \/
     (Ok "." = Ok directory /\
      Forall (fun any => on_disk (joined "config" any) = Ok false) config_files)).
Proof.
  assert (H : find_config_file string joined on_disk (Ok ".") "config" =
              Ok (Some "config/config.json")) by (vm_compute; reflexivity).
  split; [exact H |].
  exact (config_file_precedence string joined on_disk (Ok ".") "config" _ H).
Defined.

End Instances.
